(** * Adaptive concurrency primitives: a shallow embedding

  The C sources sketch an adaptive spin lock, a lock-free task queue, a
  batch collector, an adaptive fairness timeout and a work-stealing queue.
  The functions that race on shared memory (acquire, enqueue, push, steal)
  are embedded as small-step machines: one step per atomic access, with the
  function's local variables in a frame record.  Their sequential behaviour
  is the machine run alone; their concurrent behaviour is any interleaving
  of the steps of several frames over one shared state (the atomics of the
  sources are sequentially consistent or acquire/release on single words).
  The batch collector, which runs inside a critical section, and the
  timeout update are embedded as functions. *)

From Stdlib Require Import ZArith Lia Bool.
From stdpp Require Import base numbers option list gmap.

Local Open Scope Z_scope.

(** ** C integers *)

Module CInt.

(** [int] is 32 bits wide, [int64_t] and [size_t] 64 bits (LP64). *)
Definition INT_MIN : Z := - 2 ^ 31.
Definition INT_MAX : Z := 2 ^ 31 - 1.

(** Two's complement wrap-around to a signed 32-bit value: what the
    atomic read-modify-write operations on [atomic_int] are defined to
    do, and what a conversion to [int] does on the supported targets. *)
Definition wrap_int (z : Z) : Z := (z + 2 ^ 31) mod 2 ^ 32 - 2 ^ 31.

Definition wrap_int64 (z : Z) : Z := (z + 2 ^ 63) mod 2 ^ 64 - 2 ^ 63.

(** Conversion of a signed value to [size_t]. *)
Definition to_size_t (z : Z) : Z := z mod 2 ^ 64.

Definition in_int (z : Z) : Prop := INT_MIN <= z <= INT_MAX.

Lemma wrap_int_id z : in_int z -> wrap_int z = z.
Proof.
  unfold in_int, INT_MIN, INT_MAX, wrap_int. intros H.
  rewrite Z.mod_small; lia.
Qed.

Lemma wrap_int64_id z : - 2 ^ 63 <= z < 2 ^ 63 -> wrap_int64 z = z.
Proof. unfold wrap_int64. intros H. rewrite Z.mod_small; lia. Qed.

Lemma to_size_t_id z : 0 <= z < 2 ^ 64 -> to_size_t z = z.
Proof. unfold to_size_t. intros H. apply Z.mod_small; lia. Qed.

End CInt.

(** ** Interleavings of small-step machines *)

Section Interleaving.

Context {Sh Lo Or : Type}.

(** One atomic step of a thread with frame [l] over the shared state;
    [Or] carries what the environment decides (a spurious failure of a
    weak compare-and-swap, for instance). *)
Variable step : Or -> Sh -> Lo -> Sh * Lo.

(** Thread [i] takes one step; a schedule entry naming no thread of the
    pool changes nothing. *)
Definition sched_step (c : Sh * list Lo) (ev : nat * Or) : Sh * list Lo :=
  match c.2 !! ev.1 with
  | Some l => let '(s', l') := step ev.2 c.1 l in (s', <[ev.1 := l']> c.2)
  | None => c
  end.

Definition run_schedule (c : Sh * list Lo) (sch : list (nat * Or))
  : Sh * list Lo :=
  fold_left sched_step sch c.

Inductive reachable (init : Sh * list Lo) : Sh * list Lo -> Prop :=
| reach_init : reachable init init
| reach_step c ev : reachable init c -> reachable init (sched_step c ev).

(** The machine run alone for at most [fuel] steps, up to the first
    frame satisfying [final]. *)
Fixpoint run_alone (final : Lo -> bool) (o : Or) (fuel : nat) (s : Sh) (l : Lo)
  : Sh * Lo :=
  match fuel with
  | O => (s, l)
  | S fuel' =>
      if final l then (s, l)
      else let '(s', l') := step o s l in run_alone final o fuel' s' l'
  end.

Lemma run_alone_final final o fuel s l :
  final l = true -> run_alone final o fuel s l = (s, l).
Proof. intros H. destruct fuel; simpl; [done|]. by rewrite H. Qed.

Lemma run_alone_next final o fuel s l s' l' :
  final l = false -> step o s l = (s', l') ->
  run_alone final o (S fuel) s l = run_alone final o fuel s' l'.
Proof. intros H Hs. simpl. by rewrite H, Hs. Qed.

Lemma run_schedule_reachable init sch :
  reachable init (run_schedule init sch).
Proof.
  unfold run_schedule.
  rewrite <- (rev_involutive sch). generalize (rev sch) as r.
  induction r as [|ev r IH]; simpl.
  - constructor.
  - rewrite fold_left_app. simpl. by constructor.
Qed.

Lemma reachable_ind_inv (P : Sh * list Lo -> Prop) init :
  P init ->
  (forall c ev, P c -> P (sched_step c ev)) ->
  forall c, reachable init c -> P c.
Proof. intros H0 Hs c Hc. induction Hc; auto. Qed.

End Interleaving.

(** ** 1. The adaptive spin lock *)

Module SpinLock.

(** [AdaptiveSpinLock]: the lock word and the contention counter are
    [atomic_int]s.  The [max_spin] member is never read or written by the
    source. *)
Record AdaptiveSpinLock := mkLock {
  lock : Z;
  contention_count : Z;
  max_spin : Z
}.

Definition set_lock (v : Z) (s : AdaptiveSpinLock) : AdaptiveSpinLock :=
  mkLock v (contention_count s) (max_spin s).

Definition set_contention (v : Z) (s : AdaptiveSpinLock) : AdaptiveSpinLock :=
  mkLock (lock s) v (max_spin s).

(** [get_adaptive_spin_count], as a function of the loaded counter. *)
Definition spin_tier (contention : Z) : Z :=
  if contention <? 10 then 20
  else if contention <? 100 then 40
  else 60.

Definition get_adaptive_spin_count (s : AdaptiveSpinLock) : Z :=
  spin_tier (contention_count s).

(** Program points of [adaptive_spinlock_acquire], one per access to the
    shared lock. *)
Inductive acq_pc :=
| A_entry       (* initialise the locals, load the counter for max_spin *)
| A_cas         (* the compare-and-swap of the loop condition *)
| A_body        (* the loop body after a failed compare-and-swap *)
| A_load        (* atomic_load(&lock->contention_count) > 0 *)
| A_sub         (* atomic_fetch_sub(&lock->contention_count, 1) *)
| A_ret.        (* return 0 *)

#[global] Instance acq_pc_eq_dec : EqDecision acq_pc.
Proof. solve_decision. Defined.

(** The local variables of [adaptive_spinlock_acquire]. *)
Record acq_frame := mkFrame {
  pc : acq_pc;
  expected : Z;
  spin_count : Z;
  spin_limit : Z   (* the local max_spin *)
}.

Definition acq_start : acq_frame := mkFrame A_entry 0 0 0.

(** [atomic_compare_exchange_weak(&lock->lock, &expected, 1)]: it may fail
    spuriously; on failure [expected] receives the value of the lock word. *)
Definition cas_weak (spurious : bool) (s : AdaptiveSpinLock) (e : Z)
  : bool * AdaptiveSpinLock * Z :=
  if (lock s =? e) && negb spurious then (true, set_lock 1 s, e)
  else (false, s, lock s).

(** One step of [adaptive_spinlock_acquire]. *)
Definition acquire_step (spurious : bool) (s : AdaptiveSpinLock) (f : acq_frame)
  : AdaptiveSpinLock * acq_frame :=
  match pc f with
  | A_entry =>
      (s, mkFrame A_cas 0 0 (get_adaptive_spin_count s))
  | A_cas =>
      let '(ok, s', e') := cas_weak spurious s (expected f) in
      if ok then (s', mkFrame A_load e' (spin_count f) (spin_limit f))
      else (s', mkFrame A_body e' (spin_count f) (spin_limit f))
  | A_body =>
      if spin_count f <? spin_limit f then
        (* spin_count++, pause *)
        (s, mkFrame A_cas 0 (spin_count f + 1) (spin_limit f))
      else
        (* atomic_fetch_add(&lock->contention_count, 1); sched_yield();
           spin_count = 0 *)
        (set_contention (CInt.wrap_int (contention_count s + 1)) s,
         mkFrame A_cas 0 0 (spin_limit f))
  | A_load =>
      if 0 <? contention_count s
      then (s, mkFrame A_sub (expected f) (spin_count f) (spin_limit f))
      else (s, mkFrame A_ret (expected f) (spin_count f) (spin_limit f))
  | A_sub =>
      (set_contention (CInt.wrap_int (contention_count s - 1)) s,
       mkFrame A_ret (expected f) (spin_count f) (spin_limit f))
  | A_ret => (s, f)
  end.

Definition acq_returned (f : acq_frame) : bool :=
  match pc f with A_ret => true | _ => false end.

(** [adaptive_spinlock_acquire] run alone, every compare-and-swap meeting
    the same [spurious] answer. *)
Definition adaptive_spinlock_acquire (spurious : bool) (fuel : nat)
    (s : AdaptiveSpinLock) : AdaptiveSpinLock * acq_frame :=
  run_alone acquire_step acq_returned spurious fuel s acq_start.

(** Modelled from the spec: the release operation, absent from the source,
    "atomically clear[s] LOCKED": the lock word is stored back to 0 (the
    source's lock word has no other flag). *)
Definition spinlock_release (s : AdaptiveSpinLock) : AdaptiveSpinLock :=
  set_lock 0 s.

(** Modelled from the spec: the flag bits of the lock word.  The source
    only ever stores 0 and 1, so [LOCKED] is bit 0; [HAS_PARKED] is the
    other flag bit. *)
Definition LOCKED : Z := 1.
Definition HAS_PARKED : Z := 2.

(** A client thread: outside the lock, inside a call of
    [adaptive_spinlock_acquire], or in its critical section after the call
    returned. *)
Inductive client :=
| Outside
| Acquiring (f : acq_frame)
| Critical.

(** A client calls acquire, runs it to its return, and releases. *)
Definition client_step (spurious : bool) (s : AdaptiveSpinLock) (c : client)
  : AdaptiveSpinLock * client :=
  match c with
  | Outside => (s, Acquiring acq_start)
  | Acquiring f =>
      if acq_returned f then (s, Critical)
      else let '(s', f') := acquire_step spurious s f in (s', Acquiring f')
  | Critical => (spinlock_release s, Outside)
  end.

(** A thread holds the lock from its successful compare-and-swap until its
    release. *)
Definition holds (c : client) : bool :=
  match c with
  | Outside => false
  | Acquiring f =>
      match pc f with
      | A_load | A_sub | A_ret => true
      | _ => false
      end
  | Critical => true
  end.

Definition holders (ts : list client) : nat := length (filter (λ c, holds c = true) ts).

Definition pool_init (n : nat) (contention : Z) : AdaptiveSpinLock * list client :=
  (mkLock 0 contention 0, replicate n Outside).

Definition pool_reachable (n : nat) (contention : Z) :=
  reachable client_step (pool_init n contention).

(** *** The spin budget *)

Lemma spin_tier_cases c :
  (c < 10 /\ spin_tier c = 20) \/
  (10 <= c < 100 /\ spin_tier c = 40) \/
  (100 <= c /\ spin_tier c = 60).
Proof.
  unfold spin_tier.
  destruct (Z.ltb_spec c 10); [lia|].
  destruct (Z.ltb_spec c 100); lia.
Qed.

Lemma spin_tier_mono c1 c2 : c1 <= c2 -> spin_tier c1 <= spin_tier c2.
Proof.
  intros Hle.
  destruct (spin_tier_cases c1) as [[? ->]|[[? ->]|[? ->]]],
           (spin_tier_cases c2) as [[? ->]|[[? ->]|[? ->]]]; lia.
Qed.

(** C4: for every value of the contention counter the spin budget returned
    by [get_adaptive_spin_count] is one of the three tier values (20 below
    10, 40 below 100, 60 from 100 on), and the budget is monotonically
    nondecreasing in the counter. *)
Theorem get_adaptive_spin_count_tiers :
  (forall s,
     (contention_count s < 10 /\ get_adaptive_spin_count s = 20) \/
     (10 <= contention_count s < 100 /\ get_adaptive_spin_count s = 40) \/
     (100 <= contention_count s /\ get_adaptive_spin_count s = 60)) /\
  (forall s1 s2,
     contention_count s1 <= contention_count s2 ->
     get_adaptive_spin_count s1 <= get_adaptive_spin_count s2).
Proof.
  split.
  - intros s. apply spin_tier_cases.
  - intros s1 s2. apply spin_tier_mono.
Qed.

Lemma get_adaptive_spin_count_tiers_witness :
  get_adaptive_spin_count (mkLock 0 9 0) = 20 /\
  get_adaptive_spin_count (mkLock 1 10 0) = 40 /\
  get_adaptive_spin_count (mkLock 1 100 0) = 60 /\
  get_adaptive_spin_count (mkLock 0 9 0)
    <= get_adaptive_spin_count (mkLock 1 100 0).
Proof.
  repeat split; try reflexivity.
  apply (proj2 get_adaptive_spin_count_tiers). simpl. lia.
Defined.

(** The variant of the optimisation plan: the counter is thread-local, the
    thresholds are 5 and 20, and a build with the GIL does not spin. *)
Definition plan_spin_count (gil_disabled : bool) (recent_contention : Z) : Z :=
  if negb gil_disabled then 0
  else if recent_contention <? 5 then 20
  else if recent_contention <? 20 then 40
  else 60.

Lemma plan_spin_count_tiers c :
  (c < 5 /\ plan_spin_count true c = 20) \/
  (5 <= c < 20 /\ plan_spin_count true c = 40) \/
  (20 <= c /\ plan_spin_count true c = 60).
Proof.
  unfold plan_spin_count; simpl.
  destruct (Z.ltb_spec c 5); [lia|].
  destruct (Z.ltb_spec c 20); lia.
Qed.

Lemma plan_spin_count_mono g c1 c2 :
  c1 <= c2 -> plan_spin_count g c1 <= plan_spin_count g c2.
Proof.
  intros Hle. destruct g; [|done].
  destruct (plan_spin_count_tiers c1) as [[? ->]|[[? ->]|[? ->]]],
           (plan_spin_count_tiers c2) as [[? ->]|[[? ->]|[? ->]]]; lia.
Qed.

(** *** Mutual exclusion *)

Definition b2n (b : bool) : nat := if b then 1%nat else 0%nat.

Lemma holders_cons c ts : holders (c :: ts) = (b2n (holds c) + holders ts)%nat.
Proof.
  unfold holders. rewrite filter_cons.
  destruct (decide (holds c = true)) as [->|Hn]; simpl; [done|].
  by destruct (holds c).
Qed.

Lemma holders_insert ts i c c' :
  ts !! i = Some c ->
  (holders (<[i:=c']> ts) + b2n (holds c) = holders ts + b2n (holds c'))%nat.
Proof.
  revert i. induction ts as [|d ts IH]; intros [|i] Hi; simplify_eq/=.
  - rewrite !holders_cons. lia.
  - rewrite !holders_cons. specialize (IH i Hi). lia.
Qed.

Lemma holders_replicate_outside n : holders (replicate n Outside) = 0%nat.
Proof. induction n as [|n IH]; [done|]. simpl. by rewrite holders_cons, IH. Qed.

Lemma two_holders ts i j ci cj :
  ts !! i = Some ci -> ts !! j = Some cj ->
  holds ci = true -> holds cj = true -> i <> j ->
  (2 <= holders ts)%nat.
Proof.
  intros Hi Hj Hci Hcj Hne.
  pose proof (holders_insert ts i ci Outside Hi) as H1.
  assert (<[i:=Outside]> ts !! j = Some cj) as Hj'
    by (by rewrite list_lookup_insert_ne).
  pose proof (holders_insert _ j cj Outside Hj') as H2.
  rewrite Hci in H1. rewrite Hcj in H2. simpl in *. lia.
Qed.

(** Every compare-and-swap of the loop is attempted with [expected = 0]. *)
Definition frame_ok (c : client) : Prop :=
  match c with
  | Acquiring f => pc f = A_cas -> expected f = 0
  | _ => True
  end.

(** The inductive invariant: the lock word counts the holders. *)
Definition lock_inv (c : AdaptiveSpinLock * list client) : Prop :=
  (lock c.1 = 0 \/ lock c.1 = 1) /\
  Z.of_nat (holders c.2) = lock c.1 /\
  Forall frame_ok c.2.

Lemma client_step_inv o s ts i c s' c' :
  lock_inv (s, ts) ->
  ts !! i = Some c ->
  client_step o s c = (s', c') ->
  lock_inv (s', <[i:=c']> ts) /\
  (holds c = false -> holds c' = true -> lock s = 0 /\ lock s' = 1).
Proof.
  intros (Hl & Hh & Hf) Hi Hstep. simpl in *.
  pose proof (holders_insert ts i c c' Hi) as Hins.
  assert (frame_ok c) as Hc by (eapply Forall_lookup_1; eauto).
  assert (forall d, frame_ok d -> Forall frame_ok (<[i:=d]> ts)) as Hfi
    by (intros d Hd; by apply Forall_insert).
  unfold lock_inv; simpl.
  destruct c as [|f|]; simpl in Hstep.
  - (* the call *)
    simplify_eq. simpl in *. split; [|done].
    split_and!; [done|lia|]. apply Hfi. simpl. done.
  - destruct (acq_returned f) eqn:Hret.
    + (* the return *)
      unfold acq_returned in Hret. simplify_eq. simpl in *.
      destruct (pc f); try done. simpl in *. split; [|done].
      split_and!; [done|lia|]. by apply Hfi.
    + unfold acq_returned in Hret.
      destruct (acquire_step o s f) as [s1 f1] eqn:Hacq. simplify_eq.
      unfold acquire_step in Hacq.
      destruct (pc f) eqn:Hpc; simpl in *; rewrite ?Hpc in *; simpl in *.
      * simplify_eq. simpl in *. split; [|done].
        split_and!; [done|lia|]. apply Hfi. simpl. done.
      * specialize (Hc eq_refl). unfold cas_weak in Hacq. rewrite Hc in Hacq.
        destruct (Z.eqb_spec (lock s) 0) as [H0|H0]; destruct o;
          simpl in Hacq; simplify_eq; simpl in *.
        -- split; [|done]. split_and!; [done|lia|]. apply Hfi. simpl. done.
        -- split; [|done]. split_and!; [lia|lia|]. apply Hfi. simpl. done.
        -- split; [|done]. split_and!; [done|lia|]. apply Hfi. simpl. done.
        -- split; [|done]. split_and!; [done|lia|]. apply Hfi. simpl. done.
      * destruct (spin_count f <? spin_limit f); simplify_eq; simpl in *.
        -- split; [|done]. split_and!; [done|lia|]. apply Hfi. simpl. done.
        -- split; [|done]. split_and!; [done|lia|]. apply Hfi. simpl. done.
      * destruct (0 <? contention_count s); simplify_eq; simpl in *.
        -- split; [|done]. split_and!; [done|lia|]. apply Hfi. simpl. done.
        -- split; [|done]. split_and!; [done|lia|]. apply Hfi. simpl. done.
      * simplify_eq. simpl in *. split; [|done].
        split_and!; [done|lia|]. apply Hfi. simpl. done.
      * done.
  - (* the release *)
    simplify_eq. simpl in *. split; [|done].
    split_and!; [by left|lia|]. by apply Hfi.
Qed.

Lemma lock_inv_init n c0 : lock_inv (pool_init n c0).
Proof.
  unfold lock_inv, pool_init; simpl. rewrite holders_replicate_outside.
  split_and!; [by left|done|]. by apply Forall_replicate.
Qed.

Lemma lock_inv_reachable n c0 c : pool_reachable n c0 c -> lock_inv c.
Proof.
  apply reachable_ind_inv; [apply lock_inv_init|].
  intros [s ts] [i o] Hinv. unfold sched_step. simpl.
  destruct (ts !! i) as [ci|] eqn:Hi; [|done].
  destruct (client_step o s ci) as [s' c'] eqn:Hstep.
  by destruct (client_step_inv o s ts i ci s' c' Hinv Hi Hstep).
Qed.

Definition mutual_exclusion (ts : list client) : Prop :=
  forall i j ci cj,
    ts !! i = Some ci -> ts !! j = Some cj ->
    holds ci = true -> holds cj = true -> i = j.

(** A thread starts to hold the lock only by a step that finds the lock
    word 0 and leaves it 1. *)
Definition enters_by_cas (s : AdaptiveSpinLock) (ts : list client) : Prop :=
  forall i o ci,
    ts !! i = Some ci -> holds ci = false ->
    holds (client_step o s ci).2 = true ->
    lock s = 0 /\ lock (client_step o s ci).1 = 1.

(** Two threads contend: thread 0 acquires and enters its critical
    section, thread 1 fails its compare-and-swap. *)
Definition demo_schedule : list (nat * bool) :=
  (λ i, (i, false)) <$> [0; 0; 0; 0; 0; 1; 1; 1]%nat.

Definition demo_pool : AdaptiveSpinLock * list client :=
  run_schedule client_step (pool_init 2 0) demo_schedule.

(** C1: in every state reachable by interleaving the steps of any number of
    threads that call [adaptive_spinlock_acquire] and then release, at most
    one thread holds the lock; a thread comes to hold it (and so returns
    from acquire) only by a compare-and-swap step that changes the lock word
    from 0 to 1. *)
Theorem spinlock_mutual_exclusion n c0 s ts :
  pool_reachable n c0 (s, ts) ->
  mutual_exclusion ts /\ enters_by_cas s ts.
Proof.
  intros Hreach. pose proof (lock_inv_reachable _ _ _ Hreach) as Hinv.
  split.
  - intros i j ci cj Hi Hj Hci Hcj.
    destruct (decide (i = j)) as [|Hne]; [done|].
    pose proof (two_holders ts i j ci cj Hi Hj Hci Hcj Hne).
    destruct Hinv as (Hl & Hh & _). simpl in *. lia.
  - intros i o ci Hi Hci Hci'.
    destruct (client_step o s ci) as [s' c'] eqn:Hstep.
    destruct (client_step_inv o s ts i ci s' c' Hinv Hi Hstep) as [_ H].
    by apply H.
Qed.

Lemma spinlock_mutual_exclusion_witness :
  demo_pool.2 !! 0%nat = Some Critical /\
  demo_pool.2 !! 1%nat = Some (Acquiring (mkFrame A_body 1 0 20)) /\
  lock demo_pool.1 = 1 /\
  mutual_exclusion demo_pool.2 /\ enters_by_cas demo_pool.1 demo_pool.2.
Proof.
  do 3 (split; [reflexivity|]).
  apply (spinlock_mutual_exclusion 2 0 demo_pool.1 demo_pool.2).
  apply (run_schedule_reachable client_step (pool_init 2 0) demo_schedule).
Defined.

(** *** Spin exhaustion *)

(** The lock is held by another thread for the whole run: after the entry
    step, twenty spins and the twenty-first failed compare-and-swap the
    spin budget is exhausted. *)
Definition exhausted_run : AdaptiveSpinLock * acq_frame :=
  adaptive_spinlock_acquire false 43 (mkLock 1 0 0).

(** C3, as stated, fails: after the spin budget is exhausted the lock word
    is still 1, its HAS_PARKED bit clear, and the thread is at its next
    compare-and-swap rather than parked. *)
Lemma spin_exhaustion_sets_no_has_parked :
  contention_count exhausted_run.1 = 1 /\
  lock exhausted_run.1 = LOCKED /\
  Z.land (lock exhausted_run.1) HAS_PARKED = 0 /\
  exhausted_run.2 = mkFrame A_cas 0 0 20.
Proof. repeat split. Qed.

(** C3, amended: when the spin budget is exhausted (the loop body is
    entered with [spin_count >= max_spin]) the thread adds one to the
    contention counter, yields, resets its spin counter to zero and goes
    back to the compare-and-swap with [expected = 0] and the same budget;
    the lock word is left as it was. *)
Theorem spin_exhaustion_step o s f :
  pc f = A_body ->
  spin_limit f <= spin_count f ->
  let s' := (acquire_step o s f).1 in
  let f' := (acquire_step o s f).2 in
  contention_count s' = CInt.wrap_int (contention_count s + 1) /\
  (CInt.INT_MIN <= contention_count s < CInt.INT_MAX ->
   contention_count s' = contention_count s + 1) /\
  lock s' = lock s /\
  f' = mkFrame A_cas 0 0 (spin_limit f).
Proof.
  intros Hpc Hex. unfold acquire_step. rewrite Hpc.
  destruct (Z.ltb_spec (spin_count f) (spin_limit f)); [lia|]. simpl.
  split_and!; try done.
  intros Hr. apply CInt.wrap_int_id. unfold CInt.in_int. lia.
Qed.

Lemma spin_exhaustion_step_witness :
  contention_count (acquire_step false (mkLock 1 7 0) (mkFrame A_body 1 20 20)).1 = 8 /\
  lock (acquire_step false (mkLock 1 7 0) (mkFrame A_body 1 20 20)).1 = 1 /\
  (acquire_step false (mkLock 1 7 0) (mkFrame A_body 1 20 20)).2
    = mkFrame A_cas 0 0 20.
Proof.
  pose proof (spin_exhaustion_step false (mkLock 1 7 0) (mkFrame A_body 1 20 20)
                eq_refl ltac:(simpl; lia)) as (_ & H1 & H2 & H3).
  split_and!; [|exact H2|exact H3].
  apply H1. unfold CInt.INT_MIN, CInt.INT_MAX. simpl. lia.
Defined.

(** *** Waiting on a held lock *)

Lemma held_cas_fails o s j L :
  lock s <> 0 ->
  acquire_step o s (mkFrame A_cas 0 j L) = (s, mkFrame A_body (lock s) j L).
Proof.
  intros H. unfold acquire_step, cas_weak. simpl.
  apply Z.eqb_neq in H. by rewrite H.
Qed.

Lemma body_spins o s e j L :
  j < L ->
  acquire_step o s (mkFrame A_body e j L) = (s, mkFrame A_cas 0 (j + 1) L).
Proof.
  intros H. unfold acquire_step. simpl.
  by destruct (Z.ltb_spec j L); [|lia].
Qed.

Lemma body_yields o s e j L :
  L <= j ->
  acquire_step o s (mkFrame A_body e j L)
  = (set_contention (CInt.wrap_int (contention_count s + 1)) s,
     mkFrame A_cas 0 0 L).
Proof.
  intros H. unfold acquire_step. simpl.
  by destruct (Z.ltb_spec j L); [lia|].
Qed.

(** The spins left of one budget: two steps each. *)
Lemma held_spin_phase o s L n j fuel :
  lock s <> 0 -> j + Z.of_nat n = L ->
  run_alone acquire_step acq_returned o (2 * n + fuel) s (mkFrame A_cas 0 j L)
  = run_alone acquire_step acq_returned o fuel s (mkFrame A_cas 0 L L).
Proof.
  intros Hl. revert j. induction n as [|n IH]; intros j Hj.
  - simpl. by replace j with L by lia.
  - replace (2 * S n + fuel)%nat with (S (S (2 * n + fuel))) by lia.
    erewrite run_alone_next; [|done|by apply held_cas_fails].
    erewrite run_alone_next; [|done|apply body_spins; lia].
    apply IH. lia.
Qed.

(** One whole budget: [L] spins, one more failed compare-and-swap, and the
    yield that counts the contention. *)
Lemma held_round o s L fuel :
  lock s <> 0 -> 0 <= L ->
  run_alone acquire_step acq_returned o (2 * Z.to_nat L + 2 + fuel) s
            (mkFrame A_cas 0 0 L)
  = run_alone acquire_step acq_returned o fuel
      (set_contention (CInt.wrap_int (contention_count s + 1)) s)
      (mkFrame A_cas 0 0 L).
Proof.
  intros Hl HL.
  replace (2 * Z.to_nat L + 2 + fuel)%nat
    with (2 * Z.to_nat L + S (S fuel))%nat by lia.
  rewrite held_spin_phase by (done || lia).
  erewrite run_alone_next; [|done|by apply held_cas_fails].
  erewrite run_alone_next; [|done|apply body_yields; lia].
  done.
Qed.

Lemma held_rounds o L k : forall s fuel,
  lock s <> 0 -> 0 <= L ->
  CInt.INT_MIN <= contention_count s ->
  contention_count s + Z.of_nat k <= CInt.INT_MAX ->
  run_alone acquire_step acq_returned o (k * (2 * Z.to_nat L + 2) + fuel) s
            (mkFrame A_cas 0 0 L)
  = run_alone acquire_step acq_returned o fuel
      (set_contention (contention_count s + Z.of_nat k) s)
      (mkFrame A_cas 0 0 L).
Proof.
  induction k as [|k IH]; intros s fuel Hl HL Hmin Hmax.
  - simpl. destruct s as [l c m]. unfold set_contention. simpl.
    by rewrite Z.add_0_r.
  - replace (S k * (2 * Z.to_nat L + 2) + fuel)%nat
      with (2 * Z.to_nat L + 2 + (k * (2 * Z.to_nat L + 2) + fuel))%nat by lia.
    rewrite held_round by done.
    rewrite CInt.wrap_int_id
      by (unfold CInt.in_int, CInt.INT_MIN, CInt.INT_MAX in *; lia).
    rewrite Nat2Z.inj_succ in *.
    rewrite IH; unfold set_contention;
      cbn [lock contention_count max_spin]; [|done|done|lia|lia].
    by replace (contention_count s + 1 + Z.of_nat k)
      with (contention_count s + Z.succ (Z.of_nat k)) by lia.
Qed.

(** X11: a call of [adaptive_spinlock_acquire] that finds the lock held,
    and runs while it stays held, adds one to the contention counter after
    every [budget + 1] failed compare-and-swaps (two steps each), where
    [budget] is the value [get_adaptive_spin_count] gave at entry: the
    budget is not adapted while the call waits, whatever the counter
    becomes, and the lock word is left alone. *)
Theorem acquire_held_counts o s k :
  lock s <> 0 ->
  CInt.INT_MIN <= contention_count s ->
  contention_count s + Z.of_nat k <= CInt.INT_MAX ->
  adaptive_spinlock_acquire o
    (1 + k * (2 * Z.to_nat (get_adaptive_spin_count s) + 2)) s
  = (set_contention (contention_count s + Z.of_nat k) s,
     mkFrame A_cas 0 0 (get_adaptive_spin_count s)).
Proof.
  intros Hl Hmin Hmax. unfold adaptive_spinlock_acquire.
  replace (1 + k * (2 * Z.to_nat (get_adaptive_spin_count s) + 2))%nat
    with (S (k * (2 * Z.to_nat (get_adaptive_spin_count s) + 2) + 0))
    by lia.
  erewrite run_alone_next; [|done|reflexivity].
  rewrite held_rounds; [done|done| |done|done].
  unfold get_adaptive_spin_count.
  destruct (spin_tier_cases (contention_count s))
    as [[? ->]|[[? ->]|[? ->]]]; lia.
Qed.

Lemma acquire_held_counts_witness :
  adaptive_spinlock_acquire false (1 + 3 * 42) (mkLock 1 8 0)
  = (mkLock 1 11 0, mkFrame A_cas 0 0 20).
Proof.
  apply (acquire_held_counts false (mkLock 1 8 0) 3).
  - simpl. lia.
  - unfold CInt.INT_MIN. simpl. lia.
  - unfold CInt.INT_MAX. simpl. lia.
Defined.

(** The program points of a call that has not taken the lock. *)
Definition waiting (f : acq_frame) : Prop :=
  match pc f with
  | A_entry | A_body => True
  | A_cas => expected f = 0
  | _ => False
  end.

Lemma waiting_step o s f :
  lock s <> 0 -> waiting f ->
  waiting (acquire_step o s f).2 /\ lock (acquire_step o s f).1 = lock s /\
  acq_returned f = false.
Proof.
  intros Hl Hw. unfold waiting, acquire_step, acq_returned in *.
  destruct (pc f) eqn:Hpc; try done; simpl.
  - unfold cas_weak. rewrite Hw. apply Z.eqb_neq in Hl. rewrite Hl. simpl.
    done.
  - destruct (spin_count f <? spin_limit f); simpl; done.
Qed.

Lemma waiting_run o fuel : forall s f,
  lock s <> 0 -> waiting f ->
  let r := run_alone acquire_step acq_returned o fuel s f in
  acq_returned r.2 = false /\ lock r.1 = lock s.
Proof.
  induction fuel as [|fuel IH]; intros s f Hl Hw.
  - simpl. by destruct (waiting_step o s f Hl Hw) as (_ & _ & ?).
  - destruct (waiting_step o s f Hl Hw) as (Hw' & Hl' & Hret).
    simpl. rewrite Hret.
    destruct (acquire_step o s f) as [s' f'] eqn:Hstep. simpl in *.
    destruct (IH s' f') as [H1 H2]; [congruence|done|].
    split; [done|congruence].
Qed.

(** X12: [adaptive_spinlock_acquire] has no timeout and never gives up:
    run on a lock that is held and stays held, it has not returned after
    any number of steps, whatever the compare-and-swap's spurious failures,
    and it has not touched the lock word. *)
Theorem acquire_held_never_returns o fuel s :
  lock s <> 0 ->
  acq_returned (adaptive_spinlock_acquire o fuel s).2 = false /\
  lock (adaptive_spinlock_acquire o fuel s).1 = lock s.
Proof. intros Hl. by apply waiting_run. Qed.

Lemma acquire_held_never_returns_witness :
  acq_returned (adaptive_spinlock_acquire true 1000 (mkLock 1 0 0)).2 = false /\
  lock (adaptive_spinlock_acquire true 1000 (mkLock 1 0 0)).1 = 1.
Proof.
  apply (acquire_held_never_returns true 1000 (mkLock 1 0 0)). simpl. lia.
Defined.

(** *** The contention counter under contention *)

(** The thread is between its load of the counter and its decrement. *)
Definition at_sub (c : client) : bool :=
  match c with
  | Acquiring f => match pc f with A_sub => true | _ => false end
  | _ => false
  end.

Lemma at_sub_holds c : at_sub c = true -> holds c = true.
Proof. destruct c as [|f|]; simpl; try done. by destruct (pc f). Qed.

Lemma client_step_counter o s c :
  let s' := (client_step o s c).1 in
  let c' := (client_step o s c).2 in
  (contention_count s' = contention_count s /\ at_sub c = false /\
   (at_sub c' = true -> 0 < contention_count s)) \/
  (contention_count s' = CInt.wrap_int (contention_count s + 1) /\
   at_sub c = false /\ at_sub c' = false) \/
  (contention_count s' = CInt.wrap_int (contention_count s - 1) /\
   at_sub c = true /\ at_sub c' = false).
Proof.
  destruct c as [|f|]; simpl; [left; done| |left; done].
  unfold acq_returned, acquire_step.
  destruct (pc f) eqn:Hpc; simpl; rewrite ?Hpc; simpl.
  - left. done.
  - unfold cas_weak. destruct (_ && _); simpl; rewrite ?Hpc; left; done.
  - destruct (spin_count f <? spin_limit f); simpl; rewrite ?Hpc;
      [left; done|right; left; done].
  - destruct (Z.ltb_spec 0 (contention_count s)); simpl; rewrite ?Hpc;
      left; done.
  - right; right. done.
  - left. rewrite ?Hpc. done.
Qed.

(** The counter is not negative, and it is positive while a thread is
    about to decrement it. *)
Definition counter_inv (c : AdaptiveSpinLock * list client) : Prop :=
  0 <= contention_count c.1 /\
  forall i ci, c.2 !! i = Some ci -> at_sub ci = true ->
               0 < contention_count c.1.

Lemma lock_inv_step c ev : lock_inv c -> lock_inv (sched_step client_step c ev).
Proof.
  destruct c as [s ts], ev as [i o]. intros Hinv. unfold sched_step. simpl.
  destruct (ts !! i) as [ci|] eqn:Hi; [|done].
  destruct (client_step o s ci) as [s' c'] eqn:Hstep.
  by destruct (client_step_inv o s ts i ci s' c' Hinv Hi Hstep).
Qed.

Lemma counter_inv_step c ev :
  lock_inv c -> counter_inv c -> contention_count c.1 < CInt.INT_MAX ->
  counter_inv (sched_step client_step c ev) /\
  contention_count (sched_step client_step c ev).1 <= contention_count c.1 + 1.
Proof.
  destruct c as [s ts], ev as [i o]. intros (Hl & Hh & _) [H0 Hsub] Hmax.
  unfold sched_step. simpl in *.
  destruct (ts !! i) as [ci|] eqn:Hi; simpl; [|split; [done|lia]].
  pose proof (client_step_counter o s ci) as Hcase.
  destruct (client_step o s ci) as [s' c'] eqn:Hstep. simpl in *.
  assert (forall P : Prop,
            (forall j cj, j <> i -> ts !! j = Some cj -> at_sub cj = true -> P) ->
            (at_sub c' = true -> P) ->
            forall j cj, <[i:=c']> ts !! j = Some cj -> at_sub cj = true -> P)
    as Hsplit.
  { intros P Hother Hself j cj Hj Hcj.
    destruct (decide (j = i)) as [->|Hne].
    - rewrite list_lookup_insert_eq in Hj by (by eapply lookup_lt_Some).
      simplify_eq. auto.
    - rewrite list_lookup_insert_ne in Hj by done. eauto. }
  unfold counter_inv; cbn [fst snd].
  destruct Hcase as [(Hc & _ & Hpos)|[(Hc & _ & Hno)|(Hc & Hat & Hno)]].
  - rewrite Hc. split; [|lia]. split; [done|].
    apply Hsplit; [|done]. intros j cj _ Hj Hcj. eauto.
  - rewrite Hc, CInt.wrap_int_id
      by (unfold CInt.in_int, CInt.INT_MIN, CInt.INT_MAX in *; lia).
    split; [|lia]. split; [lia|]. intros; lia.
  - pose proof (Hsub i ci Hi Hat) as Hpos.
    rewrite Hc, CInt.wrap_int_id
      by (unfold CInt.in_int, CInt.INT_MIN, CInt.INT_MAX in *; lia).
    split; [|lia]. split; [lia|].
    apply Hsplit; [|by rewrite Hno].
    intros j cj Hne Hj Hcj. exfalso.
    pose proof (two_holders ts j i cj ci Hj Hi (at_sub_holds _ Hcj)
                  (at_sub_holds _ Hat) Hne).
    lia.
Qed.

Lemma counter_inv_run sch : forall c,
  lock_inv c -> counter_inv c ->
  contention_count c.1 + Z.of_nat (length sch) <= CInt.INT_MAX ->
  counter_inv (run_schedule client_step c sch) /\
  contention_count (run_schedule client_step c sch).1
    <= contention_count c.1 + Z.of_nat (length sch).
Proof.
  induction sch as [|ev sch IH]; intros c Hlock Hcnt Hmax.
  - simpl. split; [done|lia].
  - rewrite length_cons in Hmax. unfold run_schedule. simpl.
    destruct (counter_inv_step c ev Hlock Hcnt) as [Hcnt' Hle]; [lia|].
    destruct (IH (sched_step client_step c ev)) as [H1 H2];
      [by apply lock_inv_step|done|lia|].
    unfold run_schedule in *. split; [done|]. lia.
Qed.

(** X13: in every interleaving of threads that acquire and release the
    lock, the contention counter never becomes negative although its test
    ([> 0]) and its decrement are two separate atomic operations: only the
    thread that holds the lock decrements.  (It grows by at most one per
    step, so a schedule too short to reach [INT_MAX] does not wrap.) *)
Theorem contention_count_never_negative n c0 sch :
  0 <= c0 -> c0 + Z.of_nat (length sch) <= CInt.INT_MAX ->
  0 <= contention_count (run_schedule client_step (pool_init n c0) sch).1
    <= c0 + Z.of_nat (length sch).
Proof.
  intros H0 Hmax.
  destruct (counter_inv_run sch (pool_init n c0)) as [[H1 _] H2].
  - apply lock_inv_init.
  - split; [done|]. simpl. intros i ci Hi.
    apply lookup_replicate in Hi as [-> _]. done.
  - done.
  - simpl in *. lia.
Qed.

Lemma contention_count_never_negative_witness :
  0 <= contention_count demo_pool.1 <= 0 + 8.
Proof.
  apply (contention_count_never_negative 2 0 demo_schedule).
  - lia.
  - unfold CInt.INT_MAX. simpl. lia.
Defined.

(** *** Taking a free lock *)

(** Thread [i] alone takes [k] steps. *)
Definition run_thread (i : nat) (o : bool) (k : nat)
    (c : AdaptiveSpinLock * list client) : AdaptiveSpinLock * list client :=
  run_schedule client_step c (replicate k (i, o)).

Fixpoint iterate_client (o : bool) (k : nat) (s : AdaptiveSpinLock) (c : client)
  : AdaptiveSpinLock * client :=
  match k with
  | O => (s, c)
  | S k' => let '(s', c') := client_step o s c in iterate_client o k' s' c'
  end.

Lemma run_thread_alone i o k : forall s ts ci,
  ts !! i = Some ci ->
  run_thread i o k (s, ts)
  = ((iterate_client o k s ci).1, <[i := (iterate_client o k s ci).2]> ts).
Proof.
  unfold run_thread, run_schedule.
  induction k as [|k IH]; intros s ts ci Hi.
  - simpl. by rewrite list_insert_id.
  - simpl. unfold sched_step at 2. simpl. rewrite Hi.
    destruct (client_step o s ci) as [s' c'].
    rewrite (IH s' (<[i:=c']> ts) c')
      by (apply list_lookup_insert_eq; by eapply lookup_lt_Some).
    by rewrite list_insert_insert_eq.
Qed.

Lemma not_holder ts i ci :
  holders ts = 0%nat -> ts !! i = Some ci -> holds ci = false.
Proof.
  intros H0 Hi. pose proof (holders_insert ts i ci Outside Hi) as H.
  destruct (holds ci); simpl in *; [lia|done].
Qed.

Lemma iterate_to_critical s ci :
  lock s = 0 -> holds ci = false -> frame_ok ci ->
  exists k, (k <= 6)%nat /\
    (iterate_client false k s ci).2 = Critical /\
    lock (iterate_client false k s ci).1 = 1.
Proof.
  destruct s as [l cc ms]. simpl. intros -> Hh Hf.
  assert (forall f, (pc f = A_load) -> exists k, (k <= 3)%nat /\
            (iterate_client false k (mkLock 1 cc ms) (Acquiring f)).2 = Critical /\
            lock (iterate_client false k (mkLock 1 cc ms) (Acquiring f)).1 = 1)
    as Hload.
  { intros [p e sc sl]. simpl. intros ->.
    destruct (0 <? cc) eqn:Hc.
    - exists 3%nat. split; [lia|]. cbn. rewrite Hc. cbn. done.
    - exists 2%nat. split; [lia|]. cbn. rewrite Hc. cbn. done. }
  assert (forall cc' sc sl, exists k, (k <= 4)%nat /\
            (iterate_client false k (mkLock 0 cc' ms)
               (Acquiring (mkFrame A_cas 0 sc sl))).2 = Critical /\
            lock (iterate_client false k (mkLock 0 cc' ms)
               (Acquiring (mkFrame A_cas 0 sc sl))).1 = 1)
    as Hcas.
  { intros cc' sc sl.
    destruct (0 <? cc') eqn:Hc.
    - exists 4%nat. split; [lia|]. cbn. rewrite Hc. cbn. done.
    - exists 3%nat. split; [lia|]. cbn. rewrite Hc. cbn. done. }
  destruct ci as [|[p e sc sl]|]; simpl in *; [| |done].
  - destruct (Hcas cc 0 (spin_tier cc)) as (k & Hk & H1 & H2).
    exists (S (S k)). split; [lia|]. done.
  - destruct p; try done.
    + destruct (Hcas cc 0 (spin_tier cc)) as (k & Hk & H1 & H2).
      exists (S k). split; [lia|]. done.
    + rewrite (Hf eq_refl).
      destruct (Hcas cc sc sl) as (k & Hk & H1 & H2).
      exists k. split; [lia|]. done.
    + destruct (sc <? sl) eqn:Hsp.
      * destruct (Hcas cc (sc + 1) sl) as (k & Hk & H1 & H2).
        exists (S k). split; [lia|]. cbn. rewrite Hsp. done.
      * destruct (Hcas (CInt.wrap_int (cc + 1)) 0 sl) as (k & Hk & H1 & H2).
        exists (S k). split; [lia|]. cbn. rewrite Hsp. done.
Qed.

(** X23: whenever the lock is free, in any state reached by any
    interleaving, every thread is outside the lock or waiting for it, and
    whichever of them runs next on its own, without a spurious failure of
    its compare-and-swap, holds the lock and is in its critical section
    after at most six of its steps: a waiter is not parked and needs no
    wake-up, and a release cannot be missed. *)
Theorem free_lock_is_taken n c0 c i ci :
  pool_reachable n c0 c ->
  lock c.1 = 0 -> c.2 !! i = Some ci ->
  holds ci = false /\
  exists k, (k <= 6)%nat /\
    (run_thread i false k c).2 !! i = Some Critical /\
    lock (run_thread i false k c).1 = 1.
Proof.
  intros Hreach Hl Hi.
  destruct (lock_inv_reachable _ _ _ Hreach) as (_ & Hh & Hf).
  destruct c as [s ts]. simpl in *.
  assert (holds ci = false) as Hci by (apply (not_holder ts i); [lia|done]).
  split; [done|].
  destruct (iterate_to_critical s ci Hl Hci) as (k & Hk & H1 & H2);
    [by eapply Forall_lookup_1|].
  exists k. split; [done|]. rewrite (run_thread_alone i false k s ts ci Hi).
  simpl. rewrite H1, H2. split; [|done].
  apply list_lookup_insert_eq. by eapply lookup_lt_Some.
Qed.

(** Thread 0 has released the lock while thread 1 spins. *)
Definition released_pool : AdaptiveSpinLock * list client :=
  run_schedule client_step demo_pool [(0%nat, false)].

Lemma free_lock_is_taken_witness :
  released_pool.2 !! 1%nat = Some (Acquiring (mkFrame A_body 1 0 20)) /\
  exists k, (k <= 6)%nat /\
    (run_thread 1 false k released_pool).2 !! 1%nat = Some Critical /\
    lock (run_thread 1 false k released_pool).1 = 1.
Proof.
  split; [reflexivity|].
  apply (free_lock_is_taken 2 0 released_pool 1
           (Acquiring (mkFrame A_body 1 0 20))); [|reflexivity|reflexivity].
  apply (run_schedule_reachable client_step (pool_init 2 0)
           (demo_schedule ++ [(0%nat, false)])).
Defined.

End SpinLock.

(** ** 5. The adaptive fairness timeout *)

Module FairMutex.

(** [AdaptiveFairMutex]; [base_mutex] is not touched by the function. *)
Record AdaptiveFairMutex := mkFair {
  wait_time_avg : Z;        (* atomic_int, microseconds *)
  fairness_timeout_us : Z   (* atomic_int *)
}.

(** [(old_avg * 7 + wait_time_us) / 8] stored into an [int]: the product is
    an [int], the sum and the quotient are [int64_t] (the quotient truncates
    toward zero), the result is converted back to [int]. *)
Definition moving_average (old_avg wait_time_us : Z) : Z :=
  CInt.wrap_int
    (CInt.wrap_int64 (CInt.wrap_int (old_avg * 7) + wait_time_us) ÷ 8).

(** The timeout chosen for an average. *)
Definition timeout_tier (new_avg : Z) : Z :=
  if new_avg <? 100 then 500
  else if new_avg <? 1000 then 1000
  else 2000.

(** [update_fairness_timeout]: one load and two stores, taken here as one
    uninterrupted call. *)
Definition update_fairness_timeout (m : AdaptiveFairMutex) (wait_time_us : Z)
  : AdaptiveFairMutex :=
  let old_avg := wait_time_avg m in
  let new_avg := moving_average old_avg wait_time_us in
  mkFair new_avg (timeout_tier new_avg).

Lemma timeout_tier_cases a :
  (a < 100 /\ timeout_tier a = 500) \/
  (100 <= a < 1000 /\ timeout_tier a = 1000) \/
  (1000 <= a /\ timeout_tier a = 2000).
Proof.
  unfold timeout_tier.
  destruct (Z.ltb_spec a 100); [lia|].
  destruct (Z.ltb_spec a 1000); lia.
Qed.

Lemma timeout_tier_mono a b : a <= b -> timeout_tier a <= timeout_tier b.
Proof.
  intros Hle.
  destruct (timeout_tier_cases a) as [[? ->]|[[? ->]|[? ->]]],
           (timeout_tier_cases b) as [[? ->]|[[? ->]|[? ->]]]; lia.
Qed.

(** Without overflow the average is the exact truncated quotient. *)
Lemma moving_average_exact old w :
  0 <= old <= 2 ^ 27 -> 0 <= w <= 2 ^ 31 ->
  moving_average old w = (old * 7 + w) ÷ 8.
Proof.
  intros Ho Hw. unfold moving_average.
  rewrite (CInt.wrap_int_id (old * 7))
    by (unfold CInt.in_int, CInt.INT_MIN, CInt.INT_MAX; lia).
  rewrite CInt.wrap_int64_id by lia.
  apply CInt.wrap_int_id. unfold CInt.in_int, CInt.INT_MIN, CInt.INT_MAX.
  rewrite Z.quot_div_nonneg by lia.
  pose proof (Z.div_pos (old * 7 + w) 8).
  assert ((old * 7 + w) / 8 < 2 ^ 31) by (apply Z.div_lt_upper_bound; lia).
  lia.
Qed.

Lemma moving_average_mono old w1 w2 :
  0 <= old <= 2 ^ 27 -> 0 <= w1 <= w2 -> w2 <= 2 ^ 31 ->
  moving_average old w1 <= moving_average old w2.
Proof.
  intros Ho Hw Hw2. rewrite !moving_average_exact by lia.
  rewrite !Z.quot_div_nonneg by lia. apply Z.div_le_mono; lia.
Qed.

(** C6: for every wait-time sample, [update_fairness_timeout] stores the
    moving average and sets the timeout to a function of that updated
    average which is 500 below 100, 1000 below 1000 and 2000 otherwise:
    the timeout always lies in [500, 2000] and is monotonically
    nondecreasing in the updated average. *)
Theorem update_fairness_timeout_clamped m wait_time_us :
  let m' := update_fairness_timeout m wait_time_us in
  wait_time_avg m' = moving_average (wait_time_avg m) wait_time_us /\
  ((wait_time_avg m' < 100 /\ fairness_timeout_us m' = 500) \/
   (100 <= wait_time_avg m' < 1000 /\ fairness_timeout_us m' = 1000) \/
   (1000 <= wait_time_avg m' /\ fairness_timeout_us m' = 2000)) /\
  500 <= fairness_timeout_us m' <= 2000 /\
  (forall m2 w2,
     wait_time_avg (update_fairness_timeout m2 w2) <= wait_time_avg m' ->
     fairness_timeout_us (update_fairness_timeout m2 w2)
       <= fairness_timeout_us m').
Proof.
  simpl. split; [done|].
  pose proof (timeout_tier_cases (moving_average (wait_time_avg m) wait_time_us)).
  split_and!; [done|lia|lia|].
  intros m2 w2. apply timeout_tier_mono.
Qed.

Lemma update_fairness_timeout_clamped_witness :
  update_fairness_timeout (mkFair 80 500) 400 = mkFair 120 1000 /\
  update_fairness_timeout (mkFair 80 500) 0 = mkFair 70 500 /\
  fairness_timeout_us (update_fairness_timeout (mkFair 80 500) 0)
    <= fairness_timeout_us (update_fairness_timeout (mkFair 80 500) 400).
Proof.
  do 2 (split; [reflexivity|]).
  apply (update_fairness_timeout_clamped (mkFair 80 500) 400).
  simpl. vm_compute. discriminate.
Defined.

(** *** A sequence of samples *)

(** The mutex after [update_fairness_timeout] has been called with each
    sample of [ws] in turn. *)
Definition feed (m : AdaptiveFairMutex) (ws : list Z) : AdaptiveFairMutex :=
  fold_left update_fairness_timeout ws m.

Lemma moving_average_spec old w :
  0 <= old <= 2 ^ 27 -> 0 <= w <= 2 ^ 27 ->
  exists r, 0 <= r < 8 /\ 8 * moving_average old w + r = 7 * old + w.
Proof.
  intros Ho Hw. rewrite moving_average_exact by lia.
  rewrite Z.quot_div_nonneg by lia.
  exists ((old * 7 + w) mod 8).
  pose proof (Z.mod_pos_bound (old * 7 + w) 8 ltac:(lia)).
  pose proof (Z.div_mod (old * 7 + w) 8 ltac:(lia)). lia.
Qed.

Lemma feed_timeout ws : forall m,
  ws <> [] ->
  fairness_timeout_us (feed m ws) = timeout_tier (wait_time_avg (feed m ws)).
Proof.
  induction ws as [|w ws IH]; intros m Hne; [done|].
  destruct ws as [|w' ws]; [done|].
  change (feed m (w :: w' :: ws))
    with (feed (update_fairness_timeout m w) (w' :: ws)).
  by apply IH.
Qed.

(** Where the average settles under a steady sample [w]: at [w] from
    above, but seven short of it from below, the quotient being
    truncated. *)
Definition settled (old w : Z) : Z := Z.max (w - 7) (Z.min old w).

Lemma feed_steady w n : forall m,
  0 <= wait_time_avg m <= 2 ^ 27 -> 0 <= w <= 2 ^ 27 ->
  let old := wait_time_avg m in
  let a := wait_time_avg (feed m (replicate n w)) in
  0 <= a <= 2 ^ 27 /\
  (w <= old -> w <= a <= Z.max w (old - Z.of_nat n)) /\
  (old <= w - 7 -> Z.min (w - 7) (old + Z.of_nat n) <= a <= w - 7) /\
  (w - 7 <= old <= w -> a = old).
Proof.
  induction n as [|n IH]; intros m Ho Hw; simpl.
  - lia.
  - destruct (moving_average_spec (wait_time_avg m) w Ho Hw) as (r & Hr & Hq).
    specialize (IH (update_fairness_timeout m w)). simpl in IH.
    destruct IH as (I1 & I2 & I3 & I4); [lia|lia|].
    fold (feed (update_fairness_timeout m w) (replicate n w)).
    split; [done|]. split_and!; intros H.
    + destruct (decide (moving_average (wait_time_avg m) w <= w - 7));
        lia.
    + destruct (decide (w <= moving_average (wait_time_avg m) w)); lia.
    + destruct (decide (w <= moving_average (wait_time_avg m) w));
        destruct (decide (moving_average (wait_time_avg m) w <= w - 7));
        lia.
Qed.

(** X14: under a steady wait-time sample [w] the stored average moves
    toward [w] by at least one per call and then stays: coming from above
    it reaches [w] itself, but coming from below it stops at [w - 7],
    because the quotient by 8 is truncated; an average already within 7
    below [w] does not move at all.  The timeout follows the settled
    average, not the sample. *)
Theorem steady_sample_settles m w n :
  0 <= wait_time_avg m <= 2 ^ 27 -> 0 <= w <= 2 ^ 27 ->
  (0 < n)%nat -> Z.abs (wait_time_avg m - w) <= Z.of_nat n ->
  feed m (replicate n w)
  = mkFair (settled (wait_time_avg m) w)
           (timeout_tier (settled (wait_time_avg m) w)).
Proof.
  intros Ho Hw Hn Hdist.
  pose proof (feed_timeout (replicate n w) m) as Ht.
  destruct (feed_steady w n m Ho Hw) as (_ & H1 & H2 & H3).
  assert (wait_time_avg (feed m (replicate n w)) = settled (wait_time_avg m) w)
    as Ha by (unfold settled; lia).
  destruct (feed m (replicate n w)) as [a t]. simpl in *.
  rewrite Ht, Ha; [done|]. destruct n; [lia|done].
Qed.

Lemma steady_sample_settles_witness :
  feed (mkFair 0 2000) (replicate 100 100) = mkFair 93 500 /\
  feed (mkFair 300 1000) (replicate 200 100) = mkFair 100 1000.
Proof.
  split.
  - apply (steady_sample_settles (mkFair 0 2000) 100 100); simpl; lia.
  - apply (steady_sample_settles (mkFair 300 1000) 100 200); simpl; lia.
Defined.

(** X15: longer waits never shorten the timeout: of two mutexes fed
    sample by sample, the one whose average starts no lower and whose
    samples are each no smaller ends with an average and a timeout that are
    no smaller (for averages and samples up to 2^27 microseconds, where
    the arithmetic does not overflow). *)
Theorem feed_monotone m1 m2 ws1 ws2 :
  0 <= wait_time_avg m1 -> wait_time_avg m1 <= wait_time_avg m2 ->
  wait_time_avg m2 <= 2 ^ 27 ->
  fairness_timeout_us m1 <= fairness_timeout_us m2 ->
  Forall2 (λ a b, 0 <= a <= b /\ b <= 2 ^ 27) ws1 ws2 ->
  wait_time_avg (feed m1 ws1) <= wait_time_avg (feed m2 ws2) /\
  fairness_timeout_us (feed m1 ws1) <= fairness_timeout_us (feed m2 ws2).
Proof.
  intros H0 Hle Hmax Ht Hws. revert m1 m2 H0 Hle Hmax Ht.
  induction Hws as [|a b ws1 ws2 [Hab Hb] _ IH]; intros m1 m2 H0 Hle Hmax Ht.
  - done.
  - simpl.
    destruct (moving_average_spec (wait_time_avg m1) a) as (r1 & Hr1 & Hq1);
      [lia|lia|].
    destruct (moving_average_spec (wait_time_avg m2) b) as (r2 & Hr2 & Hq2);
      [lia|lia|].
    apply IH; simpl; [lia|lia|lia|].
    apply timeout_tier_mono. lia.
Qed.

Lemma feed_monotone_witness :
  wait_time_avg (feed (mkFair 80 500) [10; 20; 30])
    <= wait_time_avg (feed (mkFair 90 500) [10; 2000; 30]) /\
  fairness_timeout_us (feed (mkFair 80 500) [10; 20; 30])
    <= fairness_timeout_us (feed (mkFair 90 500) [10; 2000; 30]).
Proof.
  apply (feed_monotone (mkFair 80 500) (mkFair 90 500)); simpl; try lia.
  repeat constructor; lia.
Defined.

End FairMutex.

(** ** The contention estimate and the moving average *)

Module ContentionEstimate.

Import SpinLock FairMutex.

(** What one call of [adaptive_spinlock_acquire] on a free lock makes of
    the contention counter. *)
Definition decayed (c : Z) : Z := if 0 <? c then CInt.wrap_int (c - 1) else c.

Lemma acquire_uncontended fuel s :
  lock s = 0 -> (4 <= fuel)%nat ->
  adaptive_spinlock_acquire false fuel s
  = (mkLock 1 (decayed (contention_count s)) (max_spin s),
     mkFrame A_ret 0 0 (get_adaptive_spin_count s)).
Proof.
  intros Hl Hfuel. destruct s as [l c m]; simpl in *. subst l.
  do 4 (destruct fuel as [|fuel]; [lia|]).
  unfold adaptive_spinlock_acquire, decayed.
  cbn. destruct (0 <? c) eqn:Hc; cbn; rewrite ?Hc; cbn.
  - by rewrite run_alone_final.
  - done.
Qed.

(** C5, as stated, fails: an uncontended acquisition takes the counter from
    16 to 15 and leaves 0 at 0, and no sample makes (7*old + sample)/8
    agree with both (with sample 0 the average of 16 would be 14); a
    contended one takes 0 to 1 and 8 to 9, again matched by no one
    sample. *)
Lemma contention_counter_is_not_a_moving_average :
  contention_count (adaptive_spinlock_acquire false 4 (mkLock 0 16 0)).1 = 15 /\
  contention_count (adaptive_spinlock_acquire false 4 (mkLock 0 0 0)).1 = 0 /\
  (7 * 16 + 0) ÷ 8 = 14 /\
  ~ (exists sample, (7 * 16 + sample) ÷ 8 = 15 /\ (7 * 0 + sample) ÷ 8 = 0) /\
  contention_count (adaptive_spinlock_acquire false 43 (mkLock 1 0 0)).1 = 1 /\
  contention_count (adaptive_spinlock_acquire false 43 (mkLock 1 8 0)).1 = 9 /\
  ~ (exists sample, (7 * 0 + sample) ÷ 8 = 1 /\ (7 * 8 + sample) ÷ 8 = 9).
Proof.
  split_and!; try reflexivity.
  - intros (x & H1 & H2).
    assert (0 <= x \/ x < 0) as [Hx|Hx] by lia.
    + rewrite Z.quot_div_nonneg in H1, H2 by lia.
      assert (x / 8 = 0) as H0 by (rewrite <- H2; f_equal; lia).
      apply Z.div_small_iff in H0; [|lia].
      assert ((7 * 16 + x) / 8 < 15); [|lia].
      apply Z.div_lt_upper_bound; lia.
    + assert ((7 * 16 + x) ÷ 8 <= (7 * 16) ÷ 8) as Hle
        by (apply Z.quot_le_mono; lia).
      change ((7 * 16) ÷ 8) with 14 in Hle. lia.
  - intros (x & H1 & H2).
    assert (0 <= x \/ x < 0) as [Hx|Hx] by lia.
    + rewrite Z.quot_div_nonneg in H1, H2 by lia.
      replace (7 * 0 + x) with x in H1 by lia.
      assert (x < 16).
      { destruct (Z.lt_ge_cases x 16) as [|Hge]; [done|].
        pose proof (Z.div_le_mono 16 x 8 ltac:(lia) Hge) as Hd.
        change (16 / 8) with 2 in Hd. lia. }
      assert ((7 * 8 + x) / 8 < 9); [|lia].
      apply Z.div_lt_upper_bound; lia.
    + assert ((7 * 0 + x) ÷ 8 <= 0 ÷ 8) as Hle
        by (apply Z.quot_le_mono; lia).
      change (0 ÷ 8) with 0 in Hle. lia.
Qed.

(** C5, amended: the contention counter consulted by the spin budget is an
    up/down counter: within [adaptive_spinlock_acquire] it changes only by
    +1 at each exhaustion of the spin budget and by -1 after a successful
    compare-and-swap that finds it positive, so an uncontended acquisition
    lowers a positive counter by one and leaves a zero counter alone.  The
    moving average with weights 7/8 and 1/8, new = (7*old + sample)/8 in
    truncating integer arithmetic, is what [update_fairness_timeout] applies
    to the average wait time. *)
Theorem contention_counter_updates :
  (forall o s f,
     contention_count (acquire_step o s f).1 =
       if bool_decide (pc f = A_body) && (spin_limit f <=? spin_count f)
       then CInt.wrap_int (contention_count s + 1)
       else if bool_decide (pc f = A_sub)
       then CInt.wrap_int (contention_count s - 1)
       else contention_count s) /\
  (forall o s f,
     pc f = A_load ->
     pc (acquire_step o s f).2 = A_sub <-> 0 < contention_count s) /\
  (forall fuel s,
     lock s = 0 -> (4 <= fuel)%nat -> CInt.in_int (contention_count s) ->
     contention_count (adaptive_spinlock_acquire false fuel s).1
       = (if 0 <? contention_count s then contention_count s - 1
          else contention_count s) /\
     get_adaptive_spin_count (adaptive_spinlock_acquire false fuel s).1
       = spin_tier (if 0 <? contention_count s then contention_count s - 1
                    else contention_count s)) /\
  (forall m sample,
     0 <= wait_time_avg m <= 2 ^ 27 -> 0 <= sample <= 2 ^ 31 ->
     wait_time_avg (update_fairness_timeout m sample)
       = (7 * wait_time_avg m + sample) ÷ 8).
Proof.
  split_and!.
  - intros o s f. unfold acquire_step.
    destruct (pc f) eqn:Hpc; simpl; try done.
    + unfold cas_weak. by destruct (_ && _).
    + destruct (Z.ltb_spec (spin_count f) (spin_limit f)),
               (Z.leb_spec (spin_limit f) (spin_count f)); simpl; try lia; done.
    + by destruct (0 <? _).
  - intros o s f Hpc. unfold acquire_step. rewrite Hpc.
    destruct (Z.ltb_spec 0 (contention_count s)); simpl; split; try done; lia.
  - intros fuel s Hl Hfuel Hr. rewrite acquire_uncontended by done.
    unfold get_adaptive_spin_count, decayed; simpl.
    destruct (Z.ltb_spec 0 (contention_count s)); [|done].
    rewrite CInt.wrap_int_id; [done|].
    unfold CInt.in_int, CInt.INT_MIN, CInt.INT_MAX in *. lia.
  - intros m sample Hm Hs. simpl.
    rewrite moving_average_exact by done. f_equal. lia.
Qed.

Lemma contention_counter_updates_witness :
  contention_count (adaptive_spinlock_acquire false 4 (mkLock 0 16 0)).1 = 15 /\
  wait_time_avg (update_fairness_timeout (mkFair 16 500) 0) = 14.
Proof.
  destruct contention_counter_updates as (_ & _ & Hacq & Havg). split.
  - apply (Hacq 4%nat (mkLock 0 16 0)); [reflexivity|lia|].
    unfold CInt.in_int, CInt.INT_MIN, CInt.INT_MAX. simpl. lia.
  - apply (Havg (mkFair 16 500) 0); simpl; lia.
Defined.

End ContentionEstimate.

(** ** 2. The lock-free task queue *)

Module LockFreeQueue.

(** Pointers are addresses, [NULL] is 0. *)
Definition NULL : Z := 0.

Record TaskNode := mkNode {
  next : Z;    (* struct TaskNode *next, the first member *)
  task : Z     (* PyObject *task *)
}.

Record LockFreeTaskQueue := mkQueue {
  head : Z;
  tail : Z;
  size : Z
}.

(** The shared memory: the live [TaskNode]s by address, and the queue. *)
Record shared := mkShared {
  heap : gmap Z TaskNode;
  queue : LockFreeTaskQueue
}.

Definition set_tail (t : Z) (q : LockFreeTaskQueue) : LockFreeTaskQueue :=
  mkQueue (head q) t (size q).

(** The pointer cells that [lockfree_enqueue] hands to the atomic
    primitives: [&queue->tail], and [&n->next] for a node [n].  The address
    of a node is the address of its first member, so that [n] read as the
    address of a pointer is [&n->next]. *)
Inductive cell :=
| Cell_tail
| Cell_next (n : Z).

Definition load_cell (s : shared) (c : cell) : option Z :=
  match c with
  | Cell_tail => Some (tail (queue s))
  | Cell_next n => next <$> heap s !! n
  end.

Definition store_cell (s : shared) (c : cell) (v : Z) : shared :=
  match c with
  | Cell_tail => mkShared (heap s) (set_tail v (queue s))
  | Cell_next n =>
      match heap s !! n with
      | Some nd => mkShared (<[n := mkNode v (task nd)]> (heap s)) (queue s)
      | None => s
      end
  end.

(** [_Py_atomic_compare_exchange_ptr(obj, expected, desired)] is not
    defined in the source; CPython's [pyatomic.h] declares it, and like the
    compare-exchange calls of the source that pass [&expected], [&t] and
    [&v] it takes in [expected] the address of the expected value: it
    compares [*obj] with [*expected]; when they are equal it stores
    [desired] into [*obj] and returns 1, otherwise it stores the value of
    [*obj] into [*expected] and returns 0.  [lockfree_enqueue] passes the
    values [NULL] and [prev_tail] in that place.  An address that is
    [NULL], or that of no live node, cannot be dereferenced: there is no
    result.  The read of [*expected] and the store to it are taken within
    the step of the call. *)
Definition compare_exchange_ptr (s : shared) (obj : cell) (expected desired : Z)
  : option (bool * shared) :=
  if expected =? NULL then None
  else
    match load_cell s (Cell_next expected), load_cell s obj with
    | Some e, Some cur =>
        if cur =? e then Some (true, store_cell s obj desired)
        else Some (false, store_cell s (Cell_next expected) cur)
    | _, _ => None
    end.

(** Program points of [lockfree_enqueue]. *)
Inductive enq_pc :=
| E_malloc      (* node = PyMem_Malloc(..); initialise it *)
| E_load_tail   (* prev_tail = load(&queue->tail) *)
| E_load_next   (* next = load(&prev_tail->next) *)
| E_recheck     (* prev_tail == load(&queue->tail), then the test of next *)
| E_link        (* compare_exchange(&prev_tail->next, NULL, node) *)
| E_help        (* compare_exchange(&queue->tail, prev_tail, next) *)
| E_swing       (* compare_exchange(&queue->tail, prev_tail, node) *)
| E_count       (* add_int(&queue->size, 1) *)
| E_ret (r : Z) (* return r *)
| E_fault.      (* an access through NULL or a pointer to no live node *)

#[global] Instance enq_pc_eq_dec : EqDecision enq_pc.
Proof. solve_decision. Defined.

(** The argument and the local variables of [lockfree_enqueue]. *)
Record enq_frame := mkEnq {
  epc : enq_pc;
  arg_task : Z;
  node : Z;
  prev_tail : Z;
  next_seen : Z   (* the local next *)
}.

Definition enq_start (t : Z) : enq_frame := mkEnq E_malloc t NULL NULL NULL.

Definition at_pc (p : enq_pc) (f : enq_frame) : enq_frame :=
  mkEnq p (arg_task f) (node f) (prev_tail f) (next_seen f).

(** One step of [lockfree_enqueue].  [m] is what [PyMem_Malloc] returns if
    this step calls it: [NULL], or the address of a block that holds no live
    node.  Reference counts ([Py_NewRef]) are outside the model. *)
Definition enq_step (m : Z) (s : shared) (f : enq_frame) : shared * enq_frame :=
  match epc f with
  | E_malloc =>
      if m =? NULL then (s, at_pc (E_ret (-1)) f)
      else (mkShared (<[m := mkNode NULL (arg_task f)]> (heap s)) (queue s),
            mkEnq E_load_tail (arg_task f) m (prev_tail f) (next_seen f))
  | E_load_tail =>
      (s, mkEnq E_load_next (arg_task f) (node f) (tail (queue s)) (next_seen f))
  | E_load_next =>
      match heap s !! prev_tail f with
      | Some nd => (s, mkEnq E_recheck (arg_task f) (node f) (prev_tail f) (next nd))
      | None => (s, at_pc E_fault f)
      end
  | E_recheck =>
      if prev_tail f =? tail (queue s) then
        if next_seen f =? NULL then (s, at_pc E_link f)
        else (s, at_pc E_help f)
      else (s, at_pc E_load_tail f)
  | E_link =>
      match compare_exchange_ptr s (Cell_next (prev_tail f)) NULL (node f) with
      | Some (true, s') => (s', at_pc E_swing f)          (* break *)
      | Some (false, s') => (s', at_pc E_load_tail f)
      | None => (s, at_pc E_fault f)
      end
  | E_help =>
      match compare_exchange_ptr s Cell_tail (prev_tail f) (next_seen f) with
      | Some (_, s') => (s', at_pc E_load_tail f)
      | None => (s, at_pc E_fault f)
      end
  | E_swing =>
      match compare_exchange_ptr s Cell_tail (prev_tail f) (node f) with
      | Some (_, s') => (s', at_pc E_count f)
      | None => (s, at_pc E_fault f)
      end
  | E_count =>
      (mkShared (heap s)
         (mkQueue (head (queue s)) (tail (queue s))
                  (CInt.wrap_int (size (queue s) + 1))),
       at_pc (E_ret 0) f)
  | E_ret _ => (s, f)
  | E_fault => (s, f)
  end.

Definition enq_done (f : enq_frame) : bool :=
  match epc f with E_ret _ | E_fault => true | _ => false end.

(** The value [lockfree_enqueue] returned, if it has. *)
Definition returned (f : enq_frame) : option Z :=
  match epc f with E_ret r => Some r | _ => None end.

(** [lockfree_enqueue(queue, task)] run alone. *)
Definition lockfree_enqueue (m : Z) (fuel : nat) (s : shared) (t : Z)
  : shared * enq_frame :=
  run_alone enq_step enq_done m fuel s (enq_start t).

(** An empty queue: [head] and [tail] point to a dummy node at address
    100. *)
Definition empty_queue : shared :=
  mkShared {[ 100 := mkNode NULL 0 ]} (mkQueue 100 100 0).

(** A queue whose tail lags: node 200, holding task 7, is linked behind
    the dummy node but [tail] still points to the dummy node. *)
Definition lagging_queue : shared :=
  mkShared (<[ 200 := mkNode NULL 7 ]> {[ 100 := mkNode 200 0 ]})
           (mkQueue 100 100 1).

(** Calls of [lockfree_enqueue] interleaved, every allocation returning
    [NULL] or a block that holds no live node. *)
Inductive producers_reachable (init : shared * list enq_frame)
  : shared * list enq_frame -> Prop :=
| producers_init : producers_reachable init init
| producers_step c ev :
    producers_reachable init c ->
    ev.2 = NULL \/ heap c.1 !! ev.2 = None ->
    producers_reachable init (sched_step enq_step c ev).

(** A schedule run from [c], as long as the allocations return NULL or a
    block that holds no live node. *)
Fixpoint producers_run (c : shared * list enq_frame) (sch : list (nat * Z))
  : option (shared * list enq_frame) :=
  match sch with
  | [] => Some c
  | ev :: sch' =>
      match heap c.1 !! ev.2 with
      | None => producers_run (sched_step enq_step c ev) sch'
      | Some _ =>
          if ev.2 =? NULL then producers_run (sched_step enq_step c ev) sch'
          else None
      end
  end.

Lemma producers_run_reachable init sch : forall c c',
  producers_reachable init c -> producers_run c sch = Some c' ->
  producers_reachable init c'.
Proof.
  induction sch as [|ev sch IH]; intros c c' Hc Hrun; simpl in Hrun.
  - by simplify_eq.
  - destruct (heap c.1 !! ev.2) eqn:Hm.
    + destruct (Z.eqb_spec ev.2 NULL); [|done].
      eapply IH; [|done]. constructor; [done|by left].
    + eapply IH; [|done]. constructor; [done|by right].
Qed.

(** *** The linking call *)

(** The call at the linking compare-and-swap passes [NULL] as the address
    of the expected value: whatever the shared state, the step has no
    result. *)
Lemma link_faults m s f :
  epc f = E_link -> enq_step m s f = (s, at_pc E_fault f).
Proof. unfold enq_step. by intros ->. Qed.

Lemma enqueue_alloc_failure fuel s t :
  (1 <= fuel)%nat ->
  lockfree_enqueue NULL fuel s t = (s, mkEnq (E_ret (-1)) t NULL NULL NULL).
Proof.
  intros Hfuel. destruct fuel as [|fuel]; [lia|].
  unfold lockfree_enqueue. erewrite run_alone_next; [|done|reflexivity].
  by rewrite run_alone_final.
Qed.

Lemma enqueue_reaches_link m fuel s t nd :
  heap s !! tail (queue s) = Some nd -> next nd = NULL ->
  m <> NULL -> heap s !! m = None -> (5 <= fuel)%nat ->
  lockfree_enqueue m fuel s t
  = (mkShared (<[m := mkNode NULL t]> (heap s)) (queue s),
     mkEnq E_fault t m (tail (queue s)) NULL).
Proof.
  intros Htail Hnext Hm Hfresh Hfuel.
  do 5 (destruct fuel as [|fuel]; [lia|]).
  assert (m <> tail (queue s)) as Hne by (intros ->; congruence).
  unfold lockfree_enqueue.
  erewrite run_alone_next; [|done|].
  2:{ unfold enq_step. simpl. apply Z.eqb_neq in Hm. rewrite Hm. reflexivity. }
  erewrite run_alone_next; [|done|reflexivity].
  erewrite run_alone_next; [|done|].
  2:{ unfold enq_step. simpl. rewrite lookup_insert_ne by done.
      rewrite Htail, Hnext. reflexivity. }
  erewrite run_alone_next; [|done|].
  2:{ unfold enq_step. simpl. rewrite Z.eqb_refl. reflexivity. }
  erewrite run_alone_next; [|done|by apply link_faults].
  by rewrite run_alone_final.
Qed.

(** C8: the half of the claim about a failed allocation holds: the call
    returns -1 and leaves the shared state as it was.  The other half fails
    on the code: with a successful allocation, a call run alone on a queue
    whose tail is its last node reaches the linking compare-and-swap, which
    passes [NULL] as the address of the expected value, and faults there:
    it does not return 0, the node it allocated is linked nowhere, and
    [head], [tail] and [size] are as before. *)
Theorem lockfree_enqueue_faults_at_link m fuel s t nd :
  heap s !! tail (queue s) = Some nd -> next nd = NULL ->
  ((1 <= fuel)%nat ->
   lockfree_enqueue NULL fuel s t = (s, mkEnq (E_ret (-1)) t NULL NULL NULL)) /\
  (m <> NULL -> heap s !! m = None -> (5 <= fuel)%nat ->
   lockfree_enqueue m fuel s t
   = (mkShared (<[m := mkNode NULL t]> (heap s)) (queue s),
      mkEnq E_fault t m (tail (queue s)) NULL)).
Proof.
  intros Htail Hnext. split.
  - apply enqueue_alloc_failure.
  - intros. by eapply enqueue_reaches_link.
Qed.

Lemma lockfree_enqueue_faults_at_link_witness :
  lockfree_enqueue 200 5 empty_queue 7
  = (mkShared (<[200 := mkNode NULL 7]> {[ 100 := mkNode NULL 0 ]})
              (mkQueue 100 100 0),
     mkEnq E_fault 7 200 100 NULL) /\
  returned (lockfree_enqueue 200 5 empty_queue 7).2 = None.
Proof.
  destruct (lockfree_enqueue_faults_at_link 200 5 empty_queue 7
              (mkNode NULL 0) eq_refl eq_refl) as [_ H].
  rewrite H; [split; reflexivity|done|reflexivity|lia].
Defined.

(** *** The helping call *)

(** A call at work on a queue whose tail node [p] has a non-null next
    link. *)
Definition helping (p m : Z) (s : shared) (f : enq_frame) : Prop :=
  tail (queue s) = p /\ p <> NULL /\ m <> NULL /\
  exists x tk,
    heap s !! p = Some (mkNode x tk) /\ x <> NULL /\
    match epc f with
    | E_malloc => heap s !! m = None
    | E_load_tail => True
    | E_load_next => prev_tail f = p
    | E_recheck | E_help => prev_tail f = p /\ next_seen f = x
    | _ => False
    end.

Lemma helping_step p m s f :
  helping p m s f ->
  helping p m (enq_step m s f).1 (enq_step m s f).2 /\ enq_done f = false.
Proof.
  destruct s as [h [hd tl sz]].
  intros (Htl & Hp & Hm & x & tk & Hx & Hxn & Hf). simpl in *. subst tl.
  unfold helping, enq_step, enq_done.
  destruct (epc f) eqn:Hpc; try done; simpl.
  - apply Z.eqb_neq in Hm as Hm'. rewrite Hm'. simpl.
    split; [|done]. split_and!; try done. exists x, tk.
    rewrite lookup_insert_ne by (intros ->; congruence). done.
  - split; [|done]. split_and!; try done. by exists x, tk.
  - rewrite Hf, Hx. simpl. split; [|done]. split_and!; try done.
    by exists x, tk.
  - destruct Hf as [Hpt Hns]. rewrite Hpt, Hns, Z.eqb_refl.
    apply Z.eqb_neq in Hxn as Hxn'. rewrite Hxn'. simpl.
    split; [|done]. split_and!; try done. by exists x, tk.
  - destruct Hf as [Hpt Hns]. rewrite Hpt, Hns.
    unfold compare_exchange_ptr. simpl.
    apply Z.eqb_neq in Hp as Hp'. rewrite Hp', Hx. simpl.
    destruct (Z.eqb_spec p x) as [Heq|Hne]; simpl.
    + split; [|done]. split_and!; try done. exists x, tk. by rewrite Heq in *.
    + rewrite ?Hx. simpl. split; [|done]. split_and!; try done.
      exists p, tk. by rewrite lookup_insert_eq.
Qed.

Lemma helping_run p m fuel : forall s f,
  helping p m s f ->
  helping p m (run_alone enq_step enq_done m fuel s f).1
              (run_alone enq_step enq_done m fuel s f).2.
Proof.
  induction fuel as [|fuel IH]; intros s f Hh; [done|].
  destruct (helping_step p m s f Hh) as [Hh' Hdone].
  simpl. rewrite Hdone.
  destruct (enq_step m s f) as [s' f']. by apply IH.
Qed.

Lemma helping_first_round m s t p n tk :
  tail (queue s) = p -> heap s !! p = Some (mkNode n tk) ->
  p <> NULL -> n <> NULL -> n <> p -> m <> NULL -> heap s !! m = None ->
  lockfree_enqueue m 5 s t
  = (mkShared (<[p := mkNode p tk]> (<[m := mkNode NULL t]> (heap s)))
              (queue s),
     mkEnq E_load_tail t m p n).
Proof.
  intros Htl Hnode Hp Hn Hnp Hm Hfresh.
  assert (m <> p) as Hne by (intros ->; congruence).
  unfold lockfree_enqueue.
  erewrite run_alone_next; [|done|].
  2:{ unfold enq_step. simpl. apply Z.eqb_neq in Hm. rewrite Hm. reflexivity. }
  erewrite run_alone_next; [|done|reflexivity].
  erewrite run_alone_next; [|done|].
  2:{ unfold enq_step. simpl. rewrite Htl, lookup_insert_ne by done.
      rewrite Hnode. reflexivity. }
  erewrite run_alone_next; [|done|].
  2:{ unfold enq_step. simpl. rewrite Htl, Z.eqb_refl.
      apply Z.eqb_neq in Hn. rewrite Hn. reflexivity. }
  erewrite run_alone_next; [|done|].
  2:{ unfold enq_step, compare_exchange_ptr. simpl.
      apply Z.eqb_neq in Hp as Hp'. rewrite Hp'.
      rewrite lookup_insert_ne by done. rewrite Hnode, Htl. simpl.
      assert ((p =? n) = false) as -> by (apply Z.eqb_neq; congruence).
      rewrite ?lookup_insert_ne by done. rewrite ?Hnode. reflexivity. }
  done.
Qed.

(** C2: the helping call does not do what the claim says.  A call that
    finds a non-null next link [n] behind the tail node [p], the tail being
    still [p], does make the helping call next, but that call passes
    [prev_tail] itself as the address of the expected value: it compares
    the tail with [p]'s next link, finds them different, and stores the
    tail into that link.  After the call's first round the tail is still
    [p], not [n], and [p]'s next link is [p]: the node [n] is cut off.
    From then on the call goes round the loop without end, the tail staying
    at [p]: it never returns and never links its node. *)
Theorem helping_call_overwrites_link m s t p n tk :
  tail (queue s) = p -> heap s !! p = Some (mkNode n tk) ->
  p <> NULL -> n <> NULL -> n <> p -> m <> NULL -> heap s !! m = None ->
  lockfree_enqueue m 5 s t
  = (mkShared (<[p := mkNode p tk]> (<[m := mkNode NULL t]> (heap s)))
              (queue s),
     mkEnq E_load_tail t m p n) /\
  forall fuel,
    returned (lockfree_enqueue m fuel s t).2 = None /\
    tail (queue (lockfree_enqueue m fuel s t).1) = p.
Proof.
  intros Htl Hnode Hp Hn Hnp Hm Hfresh.
  split; [by apply helping_first_round|].
  intros fuel.
  destruct (helping_run p m fuel s (enq_start t))
    as (Ht & _ & _ & x & tk' & _ & _ & Hf).
  { split_and!; try done. by exists n, tk. }
  split; [|done]. unfold returned, lockfree_enqueue.
  by destruct (epc _).
Qed.

Lemma helping_call_overwrites_link_witness :
  lockfree_enqueue 300 5 lagging_queue 8
  = (mkShared (<[100 := mkNode 100 0]>
                 (<[300 := mkNode NULL 8]> (heap lagging_queue)))
              (mkQueue 100 100 1),
     mkEnq E_load_tail 8 300 100 200) /\
  returned (lockfree_enqueue 300 1000 lagging_queue 8).2 = None /\
  tail (queue (lockfree_enqueue 300 1000 lagging_queue 8).1) = 100.
Proof.
  destruct (helping_call_overwrites_link 300 lagging_queue 8 100 200 0)
    as [H1 H2]; [reflexivity|reflexivity|done|done|done|done|reflexivity|].
  split; [exact H1|]. apply (H2 1000%nat).
Defined.

(** *** Concurrent calls *)

(** The nodes of the queue before the calls. *)
Definition original (h0 : gmap Z TaskNode) (n : Z) : Prop := is_Some (h0 !! n).

(** Every original node is still there with its task, and its next link is
    [NULL] or an original node. *)
Definition nodes_kept (h0 h : gmap Z TaskNode) : Prop :=
  forall n nd0, h0 !! n = Some nd0 ->
    exists nd, h !! n = Some nd /\ task nd = task nd0 /\
               (next nd = NULL \/ original h0 (next nd)).

(** What a call holds in its locals, and where it can be. *)
Definition frame_stuck (h0 : gmap Z TaskNode) (f : enq_frame) : Prop :=
  match epc f with
  | E_malloc | E_load_tail | E_fault => True
  | E_load_next | E_link => original h0 (prev_tail f)
  | E_recheck =>
      original h0 (prev_tail f) /\
      (next_seen f = NULL \/ original h0 (next_seen f))
  | E_help => original h0 (prev_tail f) /\ original h0 (next_seen f)
  | E_ret r => r = -1
  | E_swing | E_count => False
  end.

Definition never_linked (h0 : gmap Z TaskNode) (q0 : LockFreeTaskQueue)
    (c : shared * list enq_frame) : Prop :=
  head (queue c.1) = head q0 /\ size (queue c.1) = size q0 /\
  original h0 (tail (queue c.1)) /\
  nodes_kept h0 (heap c.1) /\
  Forall (frame_stuck h0) c.2.

Lemma nodes_kept_alloc h0 h m nd' :
  nodes_kept h0 h -> h !! m = None -> nodes_kept h0 (<[m := nd']> h).
Proof.
  intros Hk Hm n nd0 Hn. destruct (Hk n nd0 Hn) as (nd & Hnd & Ht & Hx).
  exists nd. rewrite lookup_insert_ne by (intros ->; congruence). done.
Qed.

Lemma nodes_kept_relink h0 h p nd v :
  nodes_kept h0 h -> h !! p = Some nd -> original h0 v ->
  nodes_kept h0 (<[p := mkNode v (task nd)]> h).
Proof.
  intros Hk Hp Hv n nd0 Hn. destruct (Hk n nd0 Hn) as (nd1 & Hnd & Ht & Hx).
  destruct (decide (n = p)) as [->|Hne].
  - rewrite lookup_insert_eq. eexists. split; [done|]. simpl.
    split; [congruence|by right].
  - rewrite lookup_insert_ne by done. by exists nd1.
Qed.

Lemma never_linked_step h0 q0 c ev :
  h0 !! NULL = None ->
  never_linked h0 q0 c ->
  ev.2 = NULL \/ heap c.1 !! ev.2 = None ->
  never_linked h0 q0 (sched_step enq_step c ev).
Proof.
  destruct c as [[h [hd tl sz]] ts], ev as [i m].
  intros Hnull (Hhd & Hsz & Htl & Hk & Hfr) Hm. simpl in *.
  unfold sched_step. simpl.
  destruct (ts !! i) as [f|] eqn:Hi; [|by split_and!].
  assert (frame_stuck h0 f) as Hf by (eapply Forall_lookup_1; eauto).
  assert (forall n, original h0 n -> (n =? NULL) = false) as Hnn.
  { intros n [nd Hn]. apply Z.eqb_neq. intros ->. congruence. }
  assert (forall h' tl' f',
            nodes_kept h0 h' -> original h0 tl' -> frame_stuck h0 f' ->
            never_linked h0 q0
              (mkShared h' (mkQueue hd tl' sz), <[i:=f']> ts)) as Hgoal.
  { intros h' tl' f' H1 H2 H3. split_and!; try done. by apply Forall_insert. }
  unfold enq_step, frame_stuck in *.
  destruct (epc f) eqn:Hpc; simpl in *; try done.
  - (* the allocation *)
    destruct (Z.eqb_spec m NULL) as [->|Hmn]; simpl.
    + apply Hgoal; simpl; rewrite ?Hpc; done.
    + destruct Hm as [Hm|Hm]; [done|].
      apply Hgoal; simpl; try done. by apply nodes_kept_alloc.
  - apply Hgoal; simpl; done.
  - destruct Hf as [nd0 Hnd0].
    destruct (Hk _ _ Hnd0) as (nd & Hnd & _ & Hx). rewrite Hnd. simpl.
    apply Hgoal; simpl; try done. split; [by exists nd0|done].
  - destruct Hf as [Hp Hx].
    destruct (prev_tail f =? tl); [|apply Hgoal; simpl; done].
    destruct (Z.eqb_spec (next_seen f) NULL) as [Hz|Hz]; simpl.
    + apply Hgoal; simpl; rewrite ?Hpc; done.
    + apply Hgoal; simpl; rewrite ?Hpc; try done.
      split; [done|]. by destruct Hx.
  - (* the linking call *)
    apply Hgoal; simpl; rewrite ?Hpc; done.
  - (* the helping call *)
    destruct Hf as [Hp Hx]. unfold compare_exchange_ptr. simpl.
    rewrite (Hnn _ Hp). destruct Hp as [nd0 Hnd0].
    destruct (Hk _ _ Hnd0) as (nd & Hnd & _ & _). rewrite Hnd. simpl.
    destruct (tl =? next nd); simpl.
    + apply Hgoal; simpl; rewrite ?Hpc; done.
    + rewrite ?Hnd. simpl. apply Hgoal; simpl; rewrite ?Hpc; try done.
      by apply nodes_kept_relink.
  - apply Hgoal; simpl; rewrite ?Hpc; done.
  - apply Hgoal; simpl; rewrite ?Hpc; done.
Qed.

Lemma never_linked_reachable h0 q0 tasks c :
  h0 !! NULL = None -> original h0 (tail q0) ->
  (forall n nd, h0 !! n = Some nd -> next nd = NULL \/ original h0 (next nd)) ->
  producers_reachable (mkShared h0 q0, enq_start <$> tasks) c ->
  never_linked h0 q0 c.
Proof.
  intros Hnull Htl Hclosed Hreach.
  induction Hreach as [|c ev _ IH Hm].
  - split_and!; try done.
    + intros n nd0 Hn. exists nd0. split_and!; try done. by eapply Hclosed.
    + simpl. apply Forall_fmap. by apply Forall_true.
  - by apply never_linked_step.
Qed.

(** X7: in every interleaving of calls of [lockfree_enqueue] on a queue
    whose pointers are [NULL] or point to its own nodes, no call returns 0
    (a call that has returned has returned -1), [head] and [size] never
    change, and [tail] and the next link of every original node stay among
    [NULL] and the original nodes, each node keeping its task: no node
    that a call allocates is ever linked into the queue, so that no task is
    ever enqueued. *)
Theorem producers_never_enqueue h0 q0 tasks c :
  h0 !! NULL = None -> original h0 (tail q0) ->
  (forall n nd, h0 !! n = Some nd -> next nd = NULL \/ original h0 (next nd)) ->
  producers_reachable (mkShared h0 q0, enq_start <$> tasks) c ->
  (forall i f r, c.2 !! i = Some f -> returned f = Some r -> r = -1) /\
  head (queue c.1) = head q0 /\ size (queue c.1) = size q0 /\
  original h0 (tail (queue c.1)) /\
  forall n nd0, h0 !! n = Some nd0 ->
    exists nd, heap c.1 !! n = Some nd /\ task nd = task nd0 /\
               (next nd = NULL \/ original h0 (next nd)).
Proof.
  intros Hnull Htl Hclosed Hreach.
  destruct (never_linked_reachable h0 q0 tasks c Hnull Htl Hclosed Hreach)
    as (Hhd & Hsz & Ht & Hk & Hfr).
  split_and!; try done.
  intros i f r Hi Hr.
  pose proof (Forall_lookup_1 _ _ _ _ Hfr Hi) as Hf.
  unfold frame_stuck, returned in *.
  destruct (epc f); simplify_eq; done.
Qed.

(** Two calls on the lagging queue: the first allocates node 300 and makes
    its helping call, the second fails to allocate and returns, the first
    goes on. *)
Definition two_calls : shared * list enq_frame :=
  run_schedule enq_step (lagging_queue, enq_start <$> [8; 9])
    [(0%nat, 300); (0%nat, 0); (0%nat, 0); (0%nat, 0); (0%nat, 0);
     (1%nat, 0); (0%nat, 0); (0%nat, 0)].

Lemma two_calls_reachable :
  producers_reachable (mkShared (heap lagging_queue) (queue lagging_queue),
                       enq_start <$> [8; 9]) two_calls.
Proof.
  apply (producers_run_reachable _
           [(0%nat, 300); (0%nat, 0); (0%nat, 0); (0%nat, 0); (0%nat, 0);
            (1%nat, 0); (0%nat, 0); (0%nat, 0)]
           (lagging_queue, enq_start <$> [8; 9])); [constructor|reflexivity].
Qed.

Lemma producers_never_enqueue_witness :
  two_calls.2 = [mkEnq E_recheck 8 300 100 100; mkEnq (E_ret (-1)) 9 0 0 0] /\
  heap two_calls.1 !! 100 = Some (mkNode 100 0) /\
  size (queue two_calls.1) = 1 /\
  original (heap lagging_queue) (tail (queue two_calls.1)).
Proof.
  split; [reflexivity|]. split; [reflexivity|].
  destruct (producers_never_enqueue (heap lagging_queue) (queue lagging_queue)
              [8; 9] two_calls) as (_ & _ & Hsz & Ht & _).
  - reflexivity.
  - by eexists.
  - intros n nd Hn. unfold lagging_queue in Hn. cbn [heap] in Hn.
    apply lookup_insert_Some in Hn as [[<- <-]|[_ Hn]].
    + by left.
    + apply lookup_singleton_Some in Hn as [<- <-]. right. by eexists.
  - exact two_calls_reachable.
  - split; [exact Hsz|exact Ht].
Defined.

End LockFreeQueue.

(** ** 3. Batched collection of ready tasks *)

Module Batch.

Definition BATCH_SIZE : Z := 16.

(** [TaskBatch]: an array of [BATCH_SIZE] task pointers and a count. *)
Record TaskBatch := mkBatch {
  tasks : list Z;
  count : Z
}.

(** The part of [asyncio_state] the function uses: the ready queue, first
    item first. *)
Record asyncio_state := mkState {
  ready_queue : list Z
}.

(** Modelled from the spec: [queue_is_empty] and [queue_pop] are not in the
    source; the source of a batch is a FIFO of ready items, and popping
    removes and returns its first item (NULL, 0, when there is none). *)
Definition queue_is_empty (q : list Z) : bool :=
  match q with [] => true | _ :: _ => false end.

Definition queue_pop (q : list Z) : Z * list Z :=
  match q with [] => (0, []) | t :: q' => (t, q') end.

(** The [while] loop of [collect_ready_tasks_batch]; every iteration pops
    one item, so [length q] iterations are enough. *)
Fixpoint collect_loop (fuel : nat) (q : list Z) (b : TaskBatch)
  : list Z * TaskBatch :=
  match fuel with
  | O => (q, b)
  | S fuel' =>
      if (count b <? BATCH_SIZE) && negb (queue_is_empty q) then
        let '(t, q') := queue_pop q in
        if t =? 0 then collect_loop fuel' q' b
        else collect_loop fuel' q'
               (mkBatch (<[Z.to_nat (count b) := t]> (tasks b)) (count b + 1))
      else (q, b)
  end.

(** [collect_ready_tasks_batch]: the returned count, the state and the
    batch afterwards. *)
Definition collect_ready_tasks_batch (st : asyncio_state) (b : TaskBatch)
  : Z * asyncio_state * TaskBatch :=
  let '(q, b') :=
    collect_loop (length (ready_queue st)) (ready_queue st)
                 (mkBatch (tasks b) 0) in
  (count b', mkState q, b').

(** A dispatcher that collects batch after batch until a batch comes back
    empty, and records the sizes. *)
Fixpoint drain (rounds : nat) (st : asyncio_state) (b : TaskBatch) : list Z :=
  match rounds with
  | O => []
  | S rounds' =>
      let '(n, st', b') := collect_ready_tasks_batch st b in
      if n =? 0 then [] else n :: drain rounds' st' b'
  end.

Definition drain_all (st : asyncio_state) (b : TaskBatch) : list Z :=
  drain (S (length (ready_queue st))) st b.

Lemma collect_loop_fuel fuel q b :
  (length q <= fuel)%nat ->
  collect_loop fuel q b = collect_loop (length q) q b.
Proof.
  revert q b. induction fuel as [|fuel IH]; intros q b Hlen.
  - destruct q; simpl in *; [done|lia].
  - destruct q as [|t q]; simpl.
    + by rewrite andb_false_r.
    + destruct (count b <? BATCH_SIZE); simpl; [|done].
      simpl in Hlen. destruct (t =? 0); apply IH; lia.
Qed.

(** The loop stops with at most [BATCH_SIZE] items, and short of that only
    on an empty queue. *)
Lemma collect_loop_bound fuel q b :
  (length q <= fuel)%nat ->
  0 <= count b <= BATCH_SIZE ->
  let r := collect_loop fuel q b in
  count b <= count r.2 <= BATCH_SIZE /\
  (count r.2 < BATCH_SIZE -> r.1 = []).
Proof.
  revert q b. induction fuel as [|fuel IH]; intros q b Hlen Hc.
  - destruct q; simpl in *; [|lia]. split; [lia|done].
  - destruct q as [|t q]; simpl.
    + rewrite andb_false_r. simpl. split; [lia|done].
    + simpl in Hlen.
      destruct (Z.ltb_spec (count b) BATCH_SIZE); simpl.
      * destruct (t =? 0).
        -- apply IH; lia.
        -- destruct (IH q (mkBatch (<[Z.to_nat (count b) := t]> (tasks b))
                                   (count b + 1))) as [H1 H2];
             simpl in *; [lia|lia|]. split; [lia|done].
      * split; [lia|]. lia.
Qed.

(** On a queue without NULL items the loop moves the first items of the
    queue into the batch, in order. *)
Lemma collect_loop_nonnull fuel q b :
  (length q <= fuel)%nat ->
  Forall (λ t, t <> 0) q ->
  0 <= count b <= BATCH_SIZE ->
  let k := Z.to_nat (BATCH_SIZE - count b) in
  (collect_loop fuel q b).1 = drop k q /\
  count (collect_loop fuel q b).2 = count b + Z.of_nat (length (take k q)).
Proof.
  revert q b. induction fuel as [|fuel IH]; intros q b Hlen Hq Hc.
  - destruct q; simpl in *; [|lia]. rewrite drop_nil, take_nil. simpl.
    split; [done|lia].
  - destruct q as [|t q]; simpl.
    + rewrite andb_false_r, drop_nil, take_nil. simpl. split; [done|lia].
    + simpl in Hlen. inversion Hq as [|? ? Ht Hq']; subst.
      destruct (Z.ltb_spec (count b) BATCH_SIZE); simpl.
      * destruct (Z.eqb_spec t 0); [done|].
        destruct (IH q (mkBatch (<[Z.to_nat (count b) := t]> (tasks b))
                                (count b + 1))) as [H1 H2];
          simpl in *; [lia|done|lia|].
        replace (Z.to_nat (BATCH_SIZE - count b))
          with (S (Z.to_nat (BATCH_SIZE - (count b + 1)))) by lia.
        simpl. split; [done|]. rewrite H2. lia.
      * replace (Z.to_nat (BATCH_SIZE - count b)) with 0%nat by lia.
        simpl. split; [done|lia].
Qed.

Lemma collect_result st b :
  let r := collect_ready_tasks_batch st b in
  r.1.1 = count r.2 /\
  0 <= r.1.1 <= BATCH_SIZE /\
  (r.1.1 < BATCH_SIZE -> ready_queue r.1.2 = []).
Proof.
  unfold collect_ready_tasks_batch.
  pose proof (collect_loop_bound (length (ready_queue st)) (ready_queue st)
                (mkBatch (tasks b) 0) (le_n _)) as H.
  destruct (collect_loop _ _ _) as [q b']. simpl in *.
  destruct H as [H1 H2]; [unfold BATCH_SIZE; lia|].
  split; [done|]. split; [lia|done].
Qed.

Lemma collect_nonnull q b :
  Forall (λ t, t <> 0) q ->
  let r := collect_ready_tasks_batch (mkState q) b in
  r.1.1 = Z.of_nat (length q `min` 16) /\ r.1.2 = mkState (drop 16 q).
Proof.
  intros Hq. unfold collect_ready_tasks_batch. simpl.
  pose proof (collect_loop_nonnull (length q) q (mkBatch (tasks b) 0)
                (le_n _) Hq) as H.
  destruct (collect_loop _ _ _) as [q' b']. simpl in *.
  destruct H as [H1 H2]; [unfold BATCH_SIZE; lia|].
  change (Z.to_nat (BATCH_SIZE - 0)) with 16%nat in *.
  rewrite length_take in H2. subst q'. split; [lia|done].
Qed.

(** The sizes of the batches cut from [n] items. *)
Fixpoint chunk_sizes (rounds n : nat) : list Z :=
  match rounds with
  | O => []
  | S rounds' =>
      if (n =? 0)%nat then []
      else Z.of_nat (n `min` 16) :: chunk_sizes rounds' (n - 16)
  end.

Lemma drain_nonnull rounds q b :
  Forall (λ t, t <> 0) q ->
  drain rounds (mkState q) b = chunk_sizes rounds (length q).
Proof.
  revert q b. induction rounds as [|rounds IH]; intros q b Hq; [done|].
  simpl. pose proof (collect_nonnull q b Hq) as H.
  destruct (collect_ready_tasks_batch (mkState q) b) as [[n st'] b'].
  simpl in H. destruct H as [-> ->].
  destruct (Nat.eqb_spec (length q) 0) as [Hz|Hz].
  - rewrite Hz. done.
  - destruct (Z.eqb_spec (Z.of_nat (length q `min` 16)) 0); [lia|].
    f_equal. rewrite IH by (by apply Forall_drop). by rewrite length_drop.
Qed.

(** Fifty ready items, the tasks 1 to 50. *)
Definition fifty_ready : list Z := Z.of_nat <$> seq 1 50.

(** C9: every call of [collect_ready_tasks_batch] returns the count of the
    batch, at most [BATCH_SIZE] = 16, and fewer than 16 only when it left
    the ready queue empty; draining a ready queue that holds 50 ready
    (non-NULL) items yields the four batches of sizes 16, 16, 16, 2. *)
Theorem collect_ready_tasks_batch_sizes :
  (forall st b,
     let r := collect_ready_tasks_batch st b in
     r.1.1 = count r.2 /\
     0 <= r.1.1 <= 16 /\
     (r.1.1 < 16 -> ready_queue r.1.2 = [])) /\
  (forall q b,
     length q = 50%nat -> Forall (λ t, t <> 0) q ->
     drain_all (mkState q) b = [16; 16; 16; 2]).
Proof.
  split.
  - apply collect_result.
  - intros q b Hlen Hq. unfold drain_all. rewrite drain_nonnull by done.
    simpl. rewrite Hlen. reflexivity.
Qed.

Lemma collect_ready_tasks_batch_sizes_witness :
  drain_all (mkState fifty_ready) (mkBatch (replicate 16 0) 0)
  = [16; 16; 16; 2].
Proof.
  apply (proj2 collect_ready_tasks_batch_sizes).
  - reflexivity.
  - apply (bool_decide_unpack _). vm_compute. reflexivity.
Defined.

(** *** What a batch holds *)

Lemma collect_loop_contents fuel : forall q b,
  (length q <= fuel)%nat ->
  0 <= count b <= BATCH_SIZE ->
  length (tasks b) = 16%nat ->
  let r := collect_loop fuel q b in
  exists popped,
    q = popped ++ r.1 /\
    take (Z.to_nat (count r.2)) (tasks r.2)
    = take (Z.to_nat (count b)) (tasks b) ++ filter (λ t, t <> 0) popped /\
    drop (Z.to_nat (count r.2)) (tasks r.2)
    = drop (Z.to_nat (count r.2)) (tasks b) /\
    length (tasks r.2) = 16%nat /\
    count r.2 = count b + Z.of_nat (length (filter (λ t, t <> 0) popped)).
Proof.
  unfold BATCH_SIZE.
  induction fuel as [|fuel IH]; intros q b Hlen Hc Hb.
  - destruct q; simpl in *; [|lia]. exists []. simpl.
    rewrite app_nil_r. split_and!; try done; lia.
  - destruct q as [|t q]; simpl.
    + rewrite andb_false_r. simpl. exists []. simpl.
      rewrite app_nil_r. split_and!; try done; lia.
    + simpl in Hlen.
      destruct (Z.ltb_spec (count b) BATCH_SIZE) as [Hlt|Hge];
        unfold BATCH_SIZE in *; simpl.
      * destruct (Z.eqb_spec t 0) as [->|Ht].
        -- destruct (IH q b) as (popped & H1 & H2 & H3 & H4 & H5);
             [lia|done|done|].
           exists (0 :: popped). rewrite filter_cons_False by (by intros ?).
           split_and!; try done. simpl. by rewrite <- H1.
        -- set (n := Z.to_nat (count b)).
           destruct (IH q (mkBatch (<[n := t]> (tasks b)) (count b + 1)))
             as (popped & H1 & H2 & H3 & H4 & H5);
             [lia|simpl; lia|simpl; by rewrite length_insert|].
           simpl in H2, H3, H5.
           exists (t :: popped). rewrite filter_cons_True by done.
           split_and!.
           ++ simpl. by rewrite <- H1.
           ++ rewrite H2.
              replace (Z.to_nat (count b + 1)) with (S n) by lia.
              rewrite (take_S_r _ n t)
                by (apply list_lookup_insert_eq; lia).
              rewrite take_insert_ge by lia.
              by rewrite <- app_assoc.
           ++ rewrite H3. apply drop_insert_lt. lia.
           ++ done.
           ++ rewrite H5. simpl. lia.
      * exists []. simpl. rewrite app_nil_r. split_and!; try done; lia.
Qed.

(** What one call does to the queue and to the batch. *)
Lemma collect_contents st b :
  length (tasks b) = 16%nat ->
  let r := collect_ready_tasks_batch st b in
  exists popped,
    ready_queue st = popped ++ ready_queue r.1.2 /\
    take (Z.to_nat r.1.1) (tasks r.2) = filter (λ t, t <> 0) popped /\
    r.1.1 = Z.of_nat (length (filter (λ t, t <> 0) popped)) /\
    drop (Z.to_nat r.1.1) (tasks r.2) = drop (Z.to_nat r.1.1) (tasks b) /\
    length (tasks r.2) = 16%nat /\
    (r.1.1 < 16 -> ready_queue r.1.2 = []).
Proof.
  intros Hb. pose proof (collect_result st b) as (Hn & _ & Hempty).
  revert Hn Hempty. unfold collect_ready_tasks_batch.
  destruct (collect_loop_contents (length (ready_queue st)) (ready_queue st)
              (mkBatch (tasks b) 0) (le_n _)) as (popped & H1 & H2 & H3 & H4 & H5);
    [unfold BATCH_SIZE; simpl; lia|done|].
  destruct (collect_loop _ _ _) as [q b']. simpl in *.
  intros _ Hempty. exists popped. split_and!; try done; lia.
Qed.

(** X16: [collect_ready_tasks_batch] pops a prefix of the ready queue;
    the batch then holds, in queue order, exactly the non-NULL items of
    that prefix in its first [count] slots, NULL items being popped and
    dropped without being counted; the slots from [count] on keep what the
    batch held before the call; and the call stops short of 16 only on an
    empty queue. *)
Theorem collect_batch_contents st b :
  length (tasks b) = 16%nat ->
  let r := collect_ready_tasks_batch st b in
  exists popped,
    ready_queue st = popped ++ ready_queue r.1.2 /\
    take (Z.to_nat r.1.1) (tasks r.2) = filter (λ t, t <> 0) popped /\
    r.1.1 = Z.of_nat (length (filter (λ t, t <> 0) popped)) /\
    drop (Z.to_nat r.1.1) (tasks r.2) = drop (Z.to_nat r.1.1) (tasks b) /\
    length (tasks r.2) = 16%nat /\
    (r.1.1 < 16 -> ready_queue r.1.2 = []).
Proof. intros Hb. by apply collect_contents. Qed.

Lemma collect_batch_contents_witness :
  let r := collect_ready_tasks_batch (mkState [5; 0; 6])
             (mkBatch (replicate 16 9) 3) in
  r.1.1 = 2 /\ take 3 (tasks r.2) = [5; 6; 9] /\ ready_queue r.1.2 = [].
Proof.
  destruct (collect_batch_contents (mkState [5; 0; 6])
              (mkBatch (replicate 16 9) 3) eq_refl)
    as (popped & _ & _ & _ & _ & _ & H).
  split; [reflexivity|]. split; [reflexivity|]. apply H. reflexivity.
Defined.

Lemma chunk_sizes_split k : forall rounds r,
  (r < 16)%nat -> (16 * k + r < rounds)%nat ->
  chunk_sizes rounds (16 * k + r)
  = replicate k 16 ++ (if (r =? 0)%nat then [] else [Z.of_nat r]).
Proof.
  induction k as [|k IH]; intros rounds r Hr Hlt.
  - destruct rounds as [|rounds]; [lia|].
    replace (16 * 0 + r)%nat with r by lia. simpl.
    destruct (Nat.eqb_spec r 0); [done|].
    replace (r `min` 16)%nat with r by lia.
    replace (r - 16)%nat with 0%nat by lia.
    f_equal. by destruct rounds.
  - destruct rounds as [|rounds]; [lia|].
    cbn [chunk_sizes].
    destruct (Nat.eqb_spec (16 * S k + r) 0); [lia|].
    replace ((16 * S k + r) `min` 16)%nat with 16%nat by lia.
    replace (16 * S k + r - 16)%nat with (16 * k + r)%nat by lia.
    rewrite IH by lia. done.
Qed.

Lemma drain_counts rounds : forall q b,
  length (tasks b) = 16%nat ->
  drain rounds (mkState q) b
  = chunk_sizes rounds (length (filter (λ t, t <> 0) q)).
Proof.
  induction rounds as [|rounds IH]; intros q b Hb; [done|].
  cbn [drain chunk_sizes].
  pose proof (collect_contents (mkState q) b Hb) as H.
  pose proof (collect_result (mkState q) b) as (_ & Hr & _).
  destruct (collect_ready_tasks_batch (mkState q) b) as [[n [rest]] b'].
  simpl in H, Hr. destruct H as (popped & Hq & _ & Hn & _ & Hb' & Hempty).
  unfold BATCH_SIZE in Hr.
  assert (length (filter (λ t, t <> 0) q)
          = (Z.to_nat n + length (filter (λ t, t <> 0%Z) rest))%nat) as HN.
  { rewrite Hq, filter_app, length_app. lia. }
  destruct (Z.eqb_spec n 0) as [Hz|Hz].
  - rewrite Hempty in HN by lia. simpl in HN.
    rewrite HN. by replace (Z.to_nat n) with 0%nat by lia.
  - destruct (Nat.eqb_spec (length (filter (λ t, t <> 0) q)) 0); [lia|].
    rewrite (IH rest b' Hb'). f_equal.
    + destruct (decide (n < 16)) as [Hlt|Hge].
      * rewrite Hempty in HN by done. simpl in HN. lia.
      * lia.
    + f_equal. destruct (decide (n < 16)) as [Hlt|Hge].
      * rewrite Hempty in * by done. simpl in *. lia.
      * lia.
Qed.

(** X17: a dispatcher that calls [collect_ready_tasks_batch] until a batch
    comes back empty gets, from a queue with [N] non-NULL items (and any
    number of NULL items among them), [N / 16] full batches followed by one
    batch of [N mod 16] when that is not zero: every non-NULL item is
    counted exactly once. *)
Theorem drain_all_counts q b :
  length (tasks b) = 16%nat ->
  let N := length (filter (λ t, t <> 0) q) in
  drain_all (mkState q) b
  = replicate (N / 16) 16
    ++ (if (N mod 16 =? 0)%nat then [] else [Z.of_nat (N mod 16)]).
Proof.
  intros Hb N. unfold drain_all. rewrite drain_counts by done. fold N.
  simpl ready_queue.
  pose proof (length_filter (λ t, t <> 0) q) as Hle. fold N in Hle.
  pose proof (Nat.div_mod_eq N 16) as Hdiv.
  pose proof (Nat.mod_upper_bound N 16 ltac:(lia)) as Hmod.
  rewrite Hdiv at 1. apply chunk_sizes_split; lia.
Qed.

Lemma drain_all_counts_witness :
  drain_all (mkState (0 :: fifty_ready ++ [0; 0])) (mkBatch (replicate 16 0) 0)
  = [16; 16; 16; 2].
Proof.
  apply (drain_all_counts (0 :: fifty_ready ++ [0; 0])
           (mkBatch (replicate 16 0) 0)).
  reflexivity.
Defined.

(** *** Processing a batch *)

(** The calls [process_task_batch] makes, in order. *)
Inductive event :=
| Ctx (task : Z)          (* get_task_context(task) *)
| Exec (task ctx : Z).    (* execute_task(task, ctx) *)

Section Process.

(** [get_task_context] and [execute_task] are not in the source: what
    [get_task_context] returns for a task is a parameter, and every call of
    either function is recorded in the trace. *)
Variable get_task_context : Z -> Z.

(** The first loop, [contexts[i] = get_task_context(batch->tasks[i])]; a
    read outside the [tasks] array has no defined result. *)
Fixpoint prepare_loop (fuel : nat) (i : Z) (b : TaskBatch) (contexts : list Z)
    (tr : list event) : option (list Z * list event) :=
  match fuel with
  | O => Some (contexts, tr)
  | S fuel' =>
      if i <? count b then
        match tasks b !! Z.to_nat i with
        | Some t =>
            prepare_loop fuel' (i + 1) b
              (<[Z.to_nat i := get_task_context t]> contexts) (tr ++ [Ctx t])
        | None => None
        end
      else Some (contexts, tr)
  end.

(** The second loop, [execute_task(batch->tasks[i], contexts[i])]. *)
Fixpoint execute_loop (fuel : nat) (i : Z) (b : TaskBatch) (contexts : list Z)
    (tr : list event) : option (list event) :=
  match fuel with
  | O => Some tr
  | S fuel' =>
      if i <? count b then
        match tasks b !! Z.to_nat i, contexts !! Z.to_nat i with
        | Some t, Some c => execute_loop fuel' (i + 1) b contexts (tr ++ [Exec t c])
        | _, _ => None
        end
      else Some tr
  end.

(** [process_task_batch]: the returned value and the calls made.
    [contexts_ptr] is what [PyMem_Malloc] returned; the array it points to
    has [count] slots.  Each loop runs [count] times. *)
Definition process_task_batch (contexts_ptr : Z) (b : TaskBatch)
  : option (Z * list event) :=
  if contexts_ptr =? 0 then Some (-1, [])
  else
    let n := Z.to_nat (count b) in
    match prepare_loop n 0 b (replicate n 0) [] with
    | Some (contexts, tr) =>
        match execute_loop n 0 b contexts tr with
        | Some tr' => Some (0, tr')
        | None => None
        end
    | None => None
    end.

Lemma prepare_loop_spec b fuel : forall k rest tr,
  0 <= count b ->
  (k + fuel = Z.to_nat (count b))%nat ->
  (Z.to_nat (count b) <= length (tasks b))%nat ->
  length rest = fuel ->
  prepare_loop fuel (Z.of_nat k) b
    ((get_task_context <$> take k (tasks b)) ++ rest) tr
  = Some (get_task_context <$> take (Z.to_nat (count b)) (tasks b),
          tr ++ (Ctx <$> drop k (take (Z.to_nat (count b)) (tasks b)))).
Proof.
  induction fuel as [|fuel IH]; intros k rest tr H0 Hk Hn Hrest.
  - destruct rest; [|done]. simpl. rewrite !app_nil_r.
    replace (Z.to_nat (count b)) with k by lia.
    rewrite drop_ge by (rewrite length_take; lia).
    simpl. by rewrite app_nil_r.
  - destruct rest as [|r rest]; [done|]. simpl in Hrest.
    cbn [prepare_loop].
    destruct (Z.ltb_spec (Z.of_nat k) (count b)); [|lia].
    rewrite Nat2Z.id.
    destruct (lookup_lt_is_Some_2 (tasks b) k ltac:(lia)) as [t Ht].
    rewrite Ht.
    rewrite insert_app_r_alt
      by (rewrite length_fmap, length_take; lia).
    replace (k - length (get_task_context <$> take k (tasks b)))%nat
      with 0%nat by (rewrite length_fmap, length_take; lia).
    simpl.
    replace (Z.of_nat k + 1) with (Z.of_nat (S k)) by lia.
    replace ((get_task_context <$> take k (tasks b))
             ++ get_task_context t :: rest)
      with ((get_task_context <$> take (S k) (tasks b)) ++ rest)
      by (rewrite (take_S_r _ _ _ Ht), fmap_app, <- app_assoc; done).
    rewrite IH; [|done|lia|done|lia].
    rewrite (drop_S (take (Z.to_nat (count b)) (tasks b)) t k)
      by (rewrite lookup_take_lt by lia; done).
    by rewrite fmap_cons, <- app_assoc.
Qed.

Lemma execute_loop_spec b fuel : forall k tr,
  0 <= count b ->
  (k + fuel = Z.to_nat (count b))%nat ->
  (Z.to_nat (count b) <= length (tasks b))%nat ->
  execute_loop fuel (Z.of_nat k) b
    (get_task_context <$> take (Z.to_nat (count b)) (tasks b)) tr
  = Some (tr ++ ((λ t, Exec t (get_task_context t))
                   <$> drop k (take (Z.to_nat (count b)) (tasks b)))).
Proof.
  induction fuel as [|fuel IH]; intros k tr H0 Hk Hn.
  - simpl. rewrite drop_ge by (rewrite length_take; lia).
    simpl. by rewrite app_nil_r.
  - cbn [execute_loop].
    destruct (Z.ltb_spec (Z.of_nat k) (count b)); [|lia].
    rewrite Nat2Z.id.
    destruct (lookup_lt_is_Some_2 (tasks b) k ltac:(lia)) as [t Ht].
    rewrite Ht, list_lookup_fmap, lookup_take_lt, Ht by lia. simpl.
    replace (Z.of_nat k + 1) with (Z.of_nat (S k)) by lia.
    rewrite IH; [|done|lia|done].
    rewrite (drop_S (take (Z.to_nat (count b)) (tasks b)) t k)
      by (rewrite lookup_take_lt by lia; done).
    by rewrite fmap_cons, <- app_assoc.
Qed.

Lemma process_task_batch_trace m b :
  m <> 0 -> 0 <= count b -> (Z.to_nat (count b) <= length (tasks b))%nat ->
  process_task_batch m b
  = Some (0, (Ctx <$> take (Z.to_nat (count b)) (tasks b))
             ++ ((λ t, Exec t (get_task_context t))
                   <$> take (Z.to_nat (count b)) (tasks b))).
Proof.
  intros Hm H0 Hn. unfold process_task_batch.
  destruct (Z.eqb_spec m 0) as [|_]; [done|]. cbv zeta.
  set (n := Z.to_nat (count b)) in *.
  assert (prepare_loop n 0 b (replicate n 0) []
          = Some (get_task_context <$> take n (tasks b),
                  Ctx <$> take n (tasks b))) as Hp
    by exact (prepare_loop_spec b n 0%nat (replicate n 0) [] H0 eq_refl Hn
                (length_replicate _ _)).
  rewrite Hp.
  assert (execute_loop n 0 b (get_task_context <$> take n (tasks b))
            (Ctx <$> take n (tasks b))
          = Some ((Ctx <$> take n (tasks b))
                  ++ ((λ t, Exec t (get_task_context t)) <$> take n (tasks b))))
    as He
    by exact (execute_loop_spec b n 0%nat (Ctx <$> take n (tasks b))
                H0 eq_refl Hn).
  by rewrite He.
Qed.

(** X18: collecting a batch and handing it to [process_task_batch]: when
    the allocation of the context array succeeds, the call returns 0 after
    asking for the context of every collected task, in queue order, and
    then executing every collected task with its context, in the same
    order; all the contexts are fetched before the first task runs, and no
    read leaves the batch array.  When the allocation fails the call
    returns -1 without executing any task, although the tasks have left
    the ready queue. *)
Theorem collect_then_process st b m :
  length (tasks b) = 16%nat -> m <> 0 ->
  let r := collect_ready_tasks_batch st b in
  exists popped,
    ready_queue st = popped ++ ready_queue r.1.2 /\
    process_task_batch m r.2
    = Some (0, (Ctx <$> filter (λ t, t <> 0) popped)
               ++ ((λ t, Exec t (get_task_context t))
                     <$> filter (λ t, t <> 0) popped)) /\
    process_task_batch 0 r.2 = Some (-1, []).
Proof.
  intros Hb Hm.
  pose proof (collect_contents st b Hb) as H.
  pose proof (collect_result st b) as (Hn & Hr & _).
  destruct (collect_ready_tasks_batch st b) as [[n st'] b']. simpl in *.
  destruct H as (popped & Hq & Htake & _ & _ & Hlen & _).
  exists popped. split; [done|]. split; [|done].
  unfold BATCH_SIZE in Hr.
  rewrite process_task_batch_trace by (done || lia).
  by rewrite <- Hn, Htake.
Qed.

End Process.

Lemma collect_then_process_witness :
  let r := collect_ready_tasks_batch (mkState [5; 0; 6])
             (mkBatch (replicate 16 9) 3) in
  process_task_batch (λ t, t + 1000) 4096 r.2
  = Some (0, [Ctx 5; Ctx 6; Exec 5 1005; Exec 6 1006]) /\
  ready_queue r.1.2 = [].
Proof.
  destruct (collect_then_process (λ t, t + 1000) (mkState [5; 0; 6])
              (mkBatch (replicate 16 9) 3) 4096 eq_refl ltac:(lia))
    as (popped & _ & _ & _).
  split; reflexivity.
Defined.

End Batch.

(** ** 4. The tiered object pool *)

Module TieredPool.

Definition NULL : Z := 0.

(** [TieredObjectPool]: three arrays of 128, 64 and 32 object pointers,
    each with the count of its live slots.  The [lock] member serialises
    the calls: the region between [PyMutex_Lock] and [PyMutex_Unlock] is
    one step here. *)
Record TieredObjectPool := mkPool {
  small_pool : list Z;
  medium_pool : list Z;
  large_pool : list Z;
  small_count : Z;
  medium_count : Z;
  large_count : Z
}.

(** [obj = pool[--count]], with [count > 0] tested before: the new count
    and the object read; a read outside the array has no defined result. *)
Definition pop_slot (arr : list Z) (cnt : Z) : option (Z * Z) :=
  match arr !! Z.to_nat (cnt - 1) with
  | Some obj => Some (cnt - 1, obj)
  | None => None
  end.

(** The locked region of [tiered_pool_get]: the pool afterwards and
    [obj]. *)
Definition pick (p : TieredObjectPool) (size : Z)
  : option (TieredObjectPool * Z) :=
  if (size <=? 256) && (0 <? small_count p) then
    match pop_slot (small_pool p) (small_count p) with
    | Some (c, obj) =>
        Some (mkPool (small_pool p) (medium_pool p) (large_pool p)
                     c (medium_count p) (large_count p), obj)
    | None => None
    end
  else if (size <=? 1024) && (0 <? medium_count p) then
    match pop_slot (medium_pool p) (medium_count p) with
    | Some (c, obj) =>
        Some (mkPool (small_pool p) (medium_pool p) (large_pool p)
                     (small_count p) c (large_count p), obj)
    | None => None
    end
  else if (size <=? 4096) && (0 <? large_count p) then
    match pop_slot (large_pool p) (large_count p) with
    | Some (c, obj) =>
        Some (mkPool (small_pool p) (medium_pool p) (large_pool p)
                     (small_count p) (medium_count p) c, obj)
    | None => None
    end
  else Some (p, NULL).

(** [tiered_pool_get(pool, size)]: the pool afterwards, the object
    returned, and whether [allocate_new_object(size)] was called; [fresh]
    is what that call returns. *)
Definition tiered_pool_get (fresh : Z) (p : TieredObjectPool) (size : Z)
  : option (TieredObjectPool * Z * bool) :=
  match pick p size with
  | Some (p', obj) =>
      if obj =? NULL then Some (p', fresh, true) else Some (p', obj, false)
  | None => None
  end.

(** A caller that makes one request after the other; a request is the
    size asked for and what the allocator would return. *)
Fixpoint get_all (p : TieredObjectPool) (reqs : list (Z * Z))
  : option (TieredObjectPool * list (Z * bool)) :=
  match reqs with
  | [] => Some (p, [])
  | (size, fresh) :: reqs' =>
      match tiered_pool_get fresh p size with
      | Some (p', obj, alloc) =>
          match get_all p' reqs' with
          | Some (p'', rs) => Some (p'', (obj, alloc) :: rs)
          | None => None
          end
      | None => None
      end
  end.

(** The counts stay within the arrays. *)
Record pool_ok (p : TieredObjectPool) : Prop := mkPoolOk {
  ok_small_len : length (small_pool p) = 128%nat;
  ok_medium_len : length (medium_pool p) = 64%nat;
  ok_large_len : length (large_pool p) = 32%nat;
  ok_small : 0 <= small_count p <= 128;
  ok_medium : 0 <= medium_count p <= 64;
  ok_large : 0 <= large_count p <= 32
}.

(** The objects the pool holds: the live slots of the three tiers. *)
Definition pooled (p : TieredObjectPool) : list Z :=
  take (Z.to_nat (small_count p)) (small_pool p)
  ++ take (Z.to_nat (medium_count p)) (medium_pool p)
  ++ take (Z.to_nat (large_count p)) (large_pool p).

(** The pooled objects among the results of a run of requests. *)
Definition handed (rs : list (Z * bool)) : list Z :=
  (filter (λ r, r.2 = false) rs).*1.

Lemma pop_slot_spec arr cnt :
  0 < cnt -> (Z.to_nat cnt <= length arr)%nat ->
  exists obj, pop_slot arr cnt = Some (cnt - 1, obj) /\
    take (Z.to_nat cnt) arr = take (Z.to_nat (cnt - 1)) arr ++ [obj].
Proof.
  intros Hpos Hlen. unfold pop_slot.
  destruct (lookup_lt_is_Some_2 arr (Z.to_nat (cnt - 1)) ltac:(lia))
    as [obj Hobj].
  rewrite Hobj. exists obj. split; [done|].
  replace (Z.to_nat cnt) with (S (Z.to_nat (cnt - 1))) by lia.
  by apply take_S_r.
Qed.

(** What the locked region does to a well-formed pool. *)
Lemma pick_spec p size :
  pool_ok p ->
  exists p' obj,
    pick p size = Some (p', obj) /\ pool_ok p' /\
    small_pool p' = small_pool p /\ medium_pool p' = medium_pool p /\
    large_pool p' = large_pool p /\
    (256 < size -> small_count p' = small_count p) /\
    (1024 < size -> medium_count p' = medium_count p) /\
    (4096 < size -> p' = p /\ obj = NULL) /\
    ((p' = p /\ obj = NULL) \/ pooled p ≡ₚ obj :: pooled p').
Proof.
  intros [H1 H2 H3 H4 H5 H6]. unfold pick.
  destruct (Z.leb_spec size 256) as [Hs|Hs];
    [destruct (Z.ltb_spec 0 (small_count p)) as [Hc|Hc]|]; simpl.
  - destruct (pop_slot_spec (small_pool p) (small_count p) Hc ltac:(lia))
      as (obj & -> & Htake).
    eexists _, obj. split; [done|]. split; [constructor; simpl; lia|].
    simpl. split_and!; try done; try lia.
    right. unfold pooled. simpl. rewrite Htake, <- app_assoc. simpl.
    by rewrite <- Permutation_middle.
  - destruct (Z.leb_spec size 1024) as [Hs'|Hs']; [|lia].
    destruct (Z.ltb_spec 0 (medium_count p)) as [Hc'|Hc']; simpl.
    + destruct (pop_slot_spec (medium_pool p) (medium_count p) Hc' ltac:(lia))
        as (obj & -> & Htake).
      eexists _, obj. split; [done|]. split; [constructor; simpl; lia|].
      simpl. split_and!; try done; try lia.
      right. unfold pooled. simpl. rewrite Htake, <- !app_assoc. simpl.
      rewrite (app_assoc _ _ (obj :: _)).
      by rewrite <- Permutation_middle, <- app_assoc.
    + destruct (Z.leb_spec size 4096) as [Hs''|Hs'']; [|lia].
      destruct (Z.ltb_spec 0 (large_count p)) as [Hc''|Hc'']; simpl.
      * destruct (pop_slot_spec (large_pool p) (large_count p) Hc''
                    ltac:(lia)) as (obj & -> & Htake).
        eexists _, obj. split; [done|]. split; [constructor; simpl; lia|].
        simpl. split_and!; try done; try lia.
        right. unfold pooled. simpl. rewrite Htake, !app_assoc.
        by rewrite <- Permutation_cons_append.
      * exists p, NULL. split_and!; try done. by left.
  - destruct (Z.leb_spec size 1024) as [Hs'|Hs'];
      [destruct (Z.ltb_spec 0 (medium_count p)) as [Hc'|Hc']|]; simpl.
    + destruct (pop_slot_spec (medium_pool p) (medium_count p) Hc' ltac:(lia))
        as (obj & -> & Htake).
      eexists _, obj. split; [done|]. split; [constructor; simpl; lia|].
      simpl. split_and!; try done; try lia.
      right. unfold pooled. simpl. rewrite Htake, <- !app_assoc. simpl.
      rewrite (app_assoc _ _ (obj :: _)).
      by rewrite <- Permutation_middle, <- app_assoc.
    + destruct (Z.leb_spec size 4096) as [Hs''|Hs'']; [|lia].
      destruct (Z.ltb_spec 0 (large_count p)) as [Hc''|Hc'']; simpl.
      * destruct (pop_slot_spec (large_pool p) (large_count p) Hc''
                    ltac:(lia)) as (obj & -> & Htake).
        eexists _, obj. split; [done|]. split; [constructor; simpl; lia|].
        simpl. split_and!; try done; try lia.
        right. unfold pooled. simpl. rewrite Htake, !app_assoc.
        by rewrite <- Permutation_cons_append.
      * exists p, NULL. split_and!; try done. by left.
    + destruct (Z.leb_spec size 4096) as [Hs''|Hs''];
        [destruct (Z.ltb_spec 0 (large_count p)) as [Hc''|Hc'']|]; simpl.
      * destruct (pop_slot_spec (large_pool p) (large_count p) Hc''
                    ltac:(lia)) as (obj & -> & Htake).
        eexists _, obj. split; [done|]. split; [constructor; simpl; lia|].
        simpl. split_and!; try done; try lia.
        right. unfold pooled. simpl. rewrite Htake, !app_assoc.
        by rewrite <- Permutation_cons_append.
      * exists p, NULL. split_and!; try done. by left.
      * exists p, NULL. split_and!; try done. by left.
Qed.

(** The objects a request of [size] bytes can be served with, in the
    order in which successive requests of that size would get them: each
    tier large enough, smallest tier first, last stored first. *)
Definition eligible (p : TieredObjectPool) (size : Z) : list Z :=
  (if size <=? 256
   then reverse (take (Z.to_nat (small_count p)) (small_pool p)) else [])
  ++ (if size <=? 1024
      then reverse (take (Z.to_nat (medium_count p)) (medium_pool p)) else [])
  ++ (if size <=? 4096
      then reverse (take (Z.to_nat (large_count p)) (large_pool p)) else []).

Lemma take_nonpos {A} (arr : list A) cnt :
  cnt <= 0 -> take (Z.to_nat cnt) arr = [].
Proof. intros H. by replace (Z.to_nat cnt) with 0%nat by lia. Qed.

Lemma pick_eligible p size :
  pool_ok p ->
  match eligible p size with
  | [] => pick p size = Some (p, NULL)
  | obj :: rest =>
      exists p', pick p size = Some (p', obj) /\ eligible p' size = rest
  end.
Proof.
  intros [H1 H2 H3 H4 H5 H6]. unfold pick, eligible.
  destruct (Z.leb_spec size 256) as [Hs|Hs];
    [destruct (Z.ltb_spec 0 (small_count p)) as [Hc|Hc]|]; simpl.
  - destruct (pop_slot_spec (small_pool p) (small_count p) Hc ltac:(lia))
      as (obj & -> & Htake).
    rewrite Htake, reverse_snoc. simpl. eexists. split; [done|]. simpl.
    by destruct (size <=? 256) eqn:Hle; [|lia].
  - rewrite (take_nonpos (small_pool p)) by done. simpl.
    destruct (Z.leb_spec size 1024) as [Hs'|Hs']; [|lia].
    destruct (Z.ltb_spec 0 (medium_count p)) as [Hc'|Hc']; simpl.
    + destruct (pop_slot_spec (medium_pool p) (medium_count p) Hc' ltac:(lia))
        as (obj & -> & Htake).
      rewrite Htake, reverse_snoc. simpl. eexists. split; [done|]. simpl.
      rewrite (take_nonpos (small_pool p)) by done.
      destruct (size <=? 256), (size <=? 1024) eqn:Hle; try lia; done.
    + rewrite (take_nonpos (medium_pool p)) by done. simpl.
      destruct (Z.leb_spec size 4096) as [Hs''|Hs'']; [|lia].
      destruct (Z.ltb_spec 0 (large_count p)) as [Hc''|Hc'']; simpl.
      * destruct (pop_slot_spec (large_pool p) (large_count p) Hc''
                    ltac:(lia)) as (obj & -> & Htake).
        rewrite Htake, reverse_snoc. simpl. eexists. split; [done|]. simpl.
        rewrite (take_nonpos (small_pool p)), (take_nonpos (medium_pool p))
          by done.
        destruct (size <=? 256), (size <=? 1024), (size <=? 4096) eqn:Hle;
          try lia; done.
      * by rewrite (take_nonpos (large_pool p)) by done.
  - destruct (Z.leb_spec size 1024) as [Hs'|Hs'];
      [destruct (Z.ltb_spec 0 (medium_count p)) as [Hc'|Hc']|]; simpl.
    + destruct (pop_slot_spec (medium_pool p) (medium_count p) Hc' ltac:(lia))
        as (obj & -> & Htake).
      rewrite Htake, reverse_snoc. simpl. eexists. split; [done|]. simpl.
      destruct (Z.leb_spec size 256), (size <=? 1024) eqn:Hle; try lia; done.
    + rewrite (take_nonpos (medium_pool p)) by done. simpl.
      destruct (Z.leb_spec size 4096) as [Hs''|Hs'']; [|lia].
      destruct (Z.ltb_spec 0 (large_count p)) as [Hc''|Hc'']; simpl.
      * destruct (pop_slot_spec (large_pool p) (large_count p) Hc''
                    ltac:(lia)) as (obj & -> & Htake).
        rewrite Htake, reverse_snoc. simpl. eexists. split; [done|]. simpl.
        rewrite (take_nonpos (medium_pool p)) by done.
        destruct (Z.leb_spec size 256), (Z.leb_spec size 1024),
                 (size <=? 4096) eqn:Hle; try lia; done.
      * by rewrite (take_nonpos (large_pool p)) by done.
    + destruct (Z.leb_spec size 4096) as [Hs''|Hs''];
        [destruct (Z.ltb_spec 0 (large_count p)) as [Hc''|Hc'']|]; simpl.
      * destruct (pop_slot_spec (large_pool p) (large_count p) Hc''
                    ltac:(lia)) as (obj & -> & Htake).
        rewrite Htake, reverse_snoc. simpl. eexists. split; [done|]. simpl.
        destruct (Z.leb_spec size 256), (Z.leb_spec size 1024),
                 (size <=? 4096) eqn:Hle; try lia; done.
      * by rewrite (take_nonpos (large_pool p)) by done.
      * done.
Qed.

(** X19: [tiered_pool_get] serves a request with the first object of
    [eligible]: the object stored last in the smallest tier that is large
    enough for the size and not empty, so that a request falls through to a
    larger tier when its own is empty, and is never served from a tier
    too small for it.  That object leaves the pool; if the slot held NULL
    it leaves the pool all the same and a new object is allocated.  With
    nothing eligible (all fitting tiers empty, or a size above 4096) the
    pool is left untouched and a new object is allocated.  The counts stay
    within the arrays. *)
Theorem tiered_pool_get_eligible fresh p size :
  pool_ok p ->
  match eligible p size with
  | [] => tiered_pool_get fresh p size = Some (p, fresh, true)
  | obj :: rest =>
      exists p',
        tiered_pool_get fresh p size
        = Some (p', if obj =? NULL then fresh else obj, obj =? NULL) /\
        eligible p' size = rest /\ pool_ok p' /\
        pooled p ≡ₚ obj :: pooled p'
  end.
Proof.
  intros Hok. pose proof (pick_eligible p size Hok) as He.
  destruct (pick_spec p size Hok)
    as (p1 & obj1 & Hpick & Hok1 & _ & _ & _ & _ & _ & _ & Hperm).
  unfold tiered_pool_get.
  destruct (eligible p size) as [|obj rest] eqn:Hel.
  - by rewrite He.
  - destruct He as (p' & He & Hrest). rewrite He. rewrite He in Hpick.
    injection Hpick as Hp1 Ho1. subst p' obj. exists p1.
    destruct Hperm as [[Hp Ho]|Hperm].
    + (* the pool cannot be unchanged: its eligible objects are one less *)
      exfalso. rewrite Hp, Hel in Hrest.
      apply (f_equal length) in Hrest. simpl in Hrest. lia.
    + split_and!; try done. by destruct (obj1 =? NULL).
Qed.

Lemma tiered_pool_get_eligible_witness :
  exists p',
    tiered_pool_get 9000
      (mkPool (replicate 128 1) ([21; 22] ++ replicate 62 2) (replicate 32 3)
              0 2 1) 100
    = Some (p', 22, false) /\
    eligible p' 100 = [21; 3].
Proof.
  pose proof (tiered_pool_get_eligible 9000
    (mkPool (replicate 128 1) ([21; 22] ++ replicate 62 2) (replicate 32 3)
            0 2 1) 100) as H.
  destruct H as (p' & H1 & H2 & _).
  - constructor; simpl; lia.
  - exists p'. split; [exact H1|exact H2].
Defined.

Lemma get_all_spec reqs : forall p,
  pool_ok p ->
  exists p' rs,
    get_all p reqs = Some (p', rs) /\ pool_ok p' /\
    length rs = length reqs /\
    filter (λ o, o <> NULL) (pooled p)
    ≡ₚ handed rs ++ filter (λ o, o <> NULL) (pooled p').
Proof.
  induction reqs as [|[size fresh] reqs IH]; intros p Hok.
  - exists p, []. by split_and!.
  - cbn [get_all]. unfold tiered_pool_get.
    destruct (pick_spec p size Hok)
      as (p1 & obj & -> & Hok1 & _ & _ & _ & _ & _ & _ & Hperm).
    destruct (IH p1 Hok1) as (p2 & rs & Hget & Hok2 & Hlen & Hrs).
    destruct (Z.eqb_spec obj NULL) as [Hnull|Hnull]; rewrite Hget.
    + eexists _, _. split; [done|]. split; [done|].
      split; [simpl; by rewrite Hlen|].
      unfold handed. rewrite filter_cons_False by (simpl; done).
      fold (handed rs). rewrite <- Hrs.
      destruct Hperm as [[-> _]|Hperm]; [done|].
      rewrite Hperm, filter_cons_False; [done|]. by intros H; apply H.
    + eexists _, _. split; [done|]. split; [done|].
      split; [simpl; by rewrite Hlen|].
      unfold handed. rewrite filter_cons_True by (simpl; done).
      fold (handed rs). rewrite fmap_cons. simpl. rewrite <- Hrs.
      destruct Hperm as [[_ ->]|Hperm]; [done|].
      by rewrite Hperm, filter_cons_True.
Qed.

(** X20: over any run of requests (the mutex serialises them), of any
    sizes, no call faults and the non-NULL objects that were in the pool at
    the start are exactly those handed out from the pool since plus those
    still in it: none is lost and none is handed out twice (if the pool
    held each once, no two requests get the same pooled object). *)
Theorem get_all_hands_out_once p reqs :
  pool_ok p ->
  exists p' rs,
    get_all p reqs = Some (p', rs) /\ pool_ok p' /\
    length rs = length reqs /\
    filter (λ o, o <> NULL) (pooled p)
    ≡ₚ handed rs ++ filter (λ o, o <> NULL) (pooled p') /\
    (NoDup (filter (λ o, o <> NULL) (pooled p)) -> NoDup (handed rs)).
Proof.
  intros Hok.
  destruct (get_all_spec reqs p Hok) as (p' & rs & H1 & H2 & H3 & H4).
  exists p', rs. split_and!; try done.
  intros Hnd. rewrite H4 in Hnd. by apply NoDup_app in Hnd as [? _].
Qed.

Lemma get_all_hands_out_once_witness :
  exists p' rs,
    get_all (mkPool ([11; 12] ++ replicate 126 0) (replicate 64 0)
                    ([31] ++ replicate 31 0) 2 0 1)
            [(100, 9001); (5000, 9002); (100, 9003); (100, 9004); (100, 9005)]
    = Some (p', rs) /\
    rs = [(12, false); (9002, true); (11, false); (31, false); (9005, true)] /\
    NoDup (handed rs).
Proof.
  destruct (get_all_hands_out_once
    (mkPool ([11; 12] ++ replicate 126 0) (replicate 64 0)
            ([31] ++ replicate 31 0) 2 0 1)
    [(100, 9001); (5000, 9002); (100, 9003); (100, 9004); (100, 9005)])
    as (p' & rs & H1 & _ & _ & _ & H5).
  - constructor; simpl; lia.
  - exists p', rs. split; [exact H1|].
    vm_compute in H1. injection H1 as _ <-.
    split; [reflexivity|]. apply H5.
    apply (bool_decide_unpack _). vm_compute. reflexivity.
Defined.

End TieredPool.

(** ** 6. The work-stealing queue *)

Module WorkStealing.

(** [WorkStealingQueue]: [tasks] points to an array of [capacity] slots,
    [top] and [bottom] are [atomic_int]s, [capacity] is a [size_t]. *)
Record WorkStealingQueue := mkWSQ {
  tasks : list Z;
  top : Z;
  bottom : Z;
  capacity : Z
}.

Definition NULL : Z := 0.

(** The slot [i % q->capacity] for an [int] index [i]: the index is
    converted to [size_t] first. *)
Definition slot (i : Z) (q : WorkStealingQueue) : nat :=
  Z.to_nat (CInt.to_size_t i mod capacity q).

(** *** [ws_push] *)

Inductive push_pc :=
| P_load_bottom   (* b = load(&q->bottom) *)
| P_load_top      (* t = load_acquire(&q->top), then the capacity test *)
| P_write         (* q->tasks[b % q->capacity] = task *)
| P_publish       (* store_release(&q->bottom, b + 1) *)
| P_ret (r : Z)   (* return r *)
| P_fault.        (* a store outside the array *)

Record push_frame := mkPush {
  ppc : push_pc;
  p_task : Z;
  p_b : Z;
  p_t : Z
}.

Definition push_start (task : Z) : push_frame := mkPush P_load_bottom task 0 0.

(** The test [b - t >= q->capacity]: the [int] difference is converted to
    [size_t] for the comparison. *)
Definition is_full (b t : Z) (q : WorkStealingQueue) : bool :=
  capacity q <=? CInt.to_size_t (CInt.wrap_int (b - t)).

Definition push_step (_ : unit) (q : WorkStealingQueue) (f : push_frame)
  : WorkStealingQueue * push_frame :=
  match ppc f with
  | P_load_bottom => (q, mkPush P_load_top (p_task f) (bottom q) (p_t f))
  | P_load_top =>
      let t := top q in
      if is_full (p_b f) t q
      then (q, mkPush (P_ret (-1)) (p_task f) (p_b f) t)
      else (q, mkPush P_write (p_task f) (p_b f) t)
  | P_write =>
      if decide (slot (p_b f) q < length (tasks q))%nat
      then (mkWSQ (<[slot (p_b f) q := p_task f]> (tasks q))
                  (top q) (bottom q) (capacity q),
            mkPush P_publish (p_task f) (p_b f) (p_t f))
      else (q, mkPush P_fault (p_task f) (p_b f) (p_t f))
  | P_publish =>
      (mkWSQ (tasks q) (top q) (CInt.wrap_int (p_b f + 1)) (capacity q),
       mkPush (P_ret 0) (p_task f) (p_b f) (p_t f))
  | P_ret _ => (q, f)
  | P_fault => (q, f)
  end.

Definition push_done (f : push_frame) : bool :=
  match ppc f with P_ret _ | P_fault => true | _ => false end.

Definition push_returned (f : push_frame) : option Z :=
  match ppc f with P_ret r => Some r | _ => None end.

(** [ws_push(q, task)] run by the owner with no concurrent steal. *)
Definition ws_push (q : WorkStealingQueue) (task : Z)
  : WorkStealingQueue * push_frame :=
  run_alone push_step push_done () 4 q (push_start task).

(** *** [ws_steal] *)

Inductive steal_pc :=
| S_load_top      (* t = load_acquire(&q->top) *)
| S_load_bottom   (* b = load_acquire(&q->bottom), then the emptiness test *)
| S_read          (* task = q->tasks[t % q->capacity] *)
| S_cas           (* compare_exchange_strong(&q->top, &t, t + 1) *)
| S_ret (r : Z)   (* return r *)
| S_fault.        (* a load outside the array, or a remainder by zero *)

Record steal_frame := mkSteal {
  spc : steal_pc;
  s_t : Z;
  s_b : Z;
  s_task : Z
}.

Definition steal_start : steal_frame := mkSteal S_load_top 0 0 NULL.

Definition steal_step (_ : unit) (q : WorkStealingQueue) (f : steal_frame)
  : WorkStealingQueue * steal_frame :=
  match spc f with
  | S_load_top => (q, mkSteal S_load_bottom (top q) (s_b f) (s_task f))
  | S_load_bottom =>
      let b := bottom q in
      if b <=? s_t f
      then (q, mkSteal (S_ret NULL) (s_t f) b (s_task f))
      else (q, mkSteal S_read (s_t f) b (s_task f))
  | S_read =>
      if capacity q =? 0 then (q, mkSteal S_fault (s_t f) (s_b f) (s_task f))
      else
        match tasks q !! slot (s_t f) q with
        | Some x => (q, mkSteal S_cas (s_t f) (s_b f) x)
        | None => (q, mkSteal S_fault (s_t f) (s_b f) (s_task f))
        end
  | S_cas =>
      if top q =? s_t f
      then (mkWSQ (tasks q) (CInt.wrap_int (s_t f + 1)) (bottom q) (capacity q),
            mkSteal (S_ret (s_task f)) (s_t f) (s_b f) (s_task f))
      else (q, mkSteal (S_ret NULL) (top q) (s_b f) (s_task f))
  | S_ret _ => (q, f)
  | S_fault => (q, f)
  end.

Definition steal_done (f : steal_frame) : bool :=
  match spc f with S_ret _ | S_fault => true | _ => false end.

Definition steal_returned (f : steal_frame) : option Z :=
  match spc f with S_ret r => Some r | _ => None end.

(** [ws_steal(q)] run with no concurrent push or steal. *)
Definition ws_steal (q : WorkStealingQueue) : WorkStealingQueue * steal_frame :=
  run_alone steal_step steal_done () 4 q steal_start.

(** The invariant of the data structure: the indices are nonnegative [int]s
    with [top <= bottom], the logical size [bottom - top] is at most the
    capacity, and the array has [capacity] slots. *)
Record wsq_ok (q : WorkStealingQueue) : Prop := {
  ok_top : 0 <= top q;
  ok_order : top q <= bottom q;
  ok_size : bottom q - top q <= capacity q;
  ok_bottom : bottom q <= CInt.INT_MAX;
  ok_capacity : capacity q < 2 ^ 64;
  ok_slots : length (tasks q) = Z.to_nat (capacity q)
}.

(** *** The owner's push *)

Lemma is_full_ok q :
  wsq_ok q ->
  is_full (bottom q) (top q) q = bool_decide (bottom q - top q = capacity q).
Proof.
  intros [Ht Ho Hs Hb Hc Hl]. unfold is_full, CInt.INT_MAX in *.
  rewrite CInt.wrap_int_id
    by (unfold CInt.in_int, CInt.INT_MIN, CInt.INT_MAX; lia).
  rewrite CInt.to_size_t_id by lia.
  destruct (Z.leb_spec (capacity q) (bottom q - top q)).
  - symmetry. apply bool_decide_eq_true. lia.
  - symmetry. apply bool_decide_eq_false. lia.
Qed.

Lemma slot_ok i q :
  0 <= i <= CInt.INT_MAX -> 0 < capacity q ->
  length (tasks q) = Z.to_nat (capacity q) ->
  slot i q = Z.to_nat (i mod capacity q) /\ (slot i q < length (tasks q))%nat.
Proof.
  intros Hi Hc Hl. unfold slot, CInt.INT_MAX in *.
  rewrite CInt.to_size_t_id by lia.
  pose proof (Z.mod_pos_bound i (capacity q) Hc). split; [done|lia].
Qed.

(** Whatever the state, a push that finds the unsigned difference at or
    above the capacity is rejected, and a rejected push changes nothing. *)
Lemma ws_push_rejects q task :
  is_full (bottom q) (top q) q = true ->
  ws_push q task = (q, mkPush (P_ret (-1)) task (bottom q) (top q)).
Proof.
  intros Hfull. unfold ws_push.
  erewrite run_alone_next; [|done|reflexivity].
  erewrite run_alone_next; [|done|].
  2:{ unfold push_step. simpl. rewrite Hfull. reflexivity. }
  by rewrite run_alone_final.
Qed.

Lemma ws_push_accepts q task :
  is_full (bottom q) (top q) q = false ->
  (slot (bottom q) q < length (tasks q))%nat ->
  ws_push q task
  = (mkWSQ (<[slot (bottom q) q := task]> (tasks q)) (top q)
           (CInt.wrap_int (bottom q + 1)) (capacity q),
     mkPush (P_ret 0) task (bottom q) (top q)).
Proof.
  intros Hfull Hslot. unfold ws_push.
  erewrite run_alone_next; [|done|reflexivity].
  erewrite run_alone_next; [|done|].
  2:{ unfold push_step. simpl. rewrite Hfull. reflexivity. }
  erewrite run_alone_next; [|done|].
  2:{ unfold push_step. simpl. rewrite decide_True by done. reflexivity. }
  erewrite run_alone_next; [|done|reflexivity].
  done.
Qed.

(** Below [INT_MAX]: on every deque state that satisfies the invariant
    and whose bottom index can still be incremented, [ws_push] returns -1 exactly
    when [bottom - top] equals the capacity, and then leaves [top],
    [bottom] and every slot unchanged; otherwise it writes the item into
    slot [bottom mod capacity], stores [bottom + 1] into [bottom] and
    returns 0. *)
Theorem ws_push_full_or_publish q task :
  wsq_ok q -> bottom q < CInt.INT_MAX ->
  (push_returned (ws_push q task).2 = Some (-1)
     <-> bottom q - top q = capacity q) /\
  (bottom q - top q = capacity q -> (ws_push q task).1 = q) /\
  (bottom q - top q <> capacity q ->
     push_returned (ws_push q task).2 = Some 0 /\
     (ws_push q task).1
     = mkWSQ (<[Z.to_nat (bottom q mod capacity q) := task]> (tasks q))
             (top q) (bottom q + 1) (capacity q)).
Proof.
  intros Hok Hb. pose proof (is_full_ok q Hok) as Hfull.
  destruct Hok as [Ht Ho Hs Hb' Hc Hl].
  destruct (decide (bottom q - top q = capacity q)) as [Heq|Hne].
  - rewrite bool_decide_eq_true_2 in Hfull by done.
    rewrite ws_push_rejects by done. simpl. done.
  - rewrite bool_decide_eq_false_2 in Hfull by done.
    destruct (slot_ok (bottom q) q) as [Hslot Hlt]; [lia|lia|done|].
    rewrite ws_push_accepts by done. simpl.
    rewrite Hslot, CInt.wrap_int_id
      by (unfold CInt.in_int, CInt.INT_MIN, CInt.INT_MAX in *; lia).
    split_and!; [split; [done|lia]|done|done].
Qed.

(** A deque of capacity 4 holding the tasks 11, 12, 13, and the same deque
    once full. *)
Definition three_of_four : WorkStealingQueue := mkWSQ [11; 12; 13; 0] 0 3 4.
Definition four_of_four : WorkStealingQueue := mkWSQ [11; 12; 13; 14] 0 4 4.

Lemma three_of_four_ok : wsq_ok three_of_four.
Proof. split; simpl; unfold CInt.INT_MAX; lia. Qed.

Lemma four_of_four_ok : wsq_ok four_of_four.
Proof. split; simpl; unfold CInt.INT_MAX; lia. Qed.


Lemma ws_push_full_or_publish_witness :
  ws_push three_of_four 14
  = (four_of_four, mkPush (P_ret 0) 14 3 0) /\
  (ws_push four_of_four 15).1 = four_of_four /\
  push_returned (ws_push four_of_four 15).2 = Some (-1).
Proof.
  split; [reflexivity|].
  destruct (ws_push_full_or_publish four_of_four 15 four_of_four_ok)
    as (Hret & Hsame & _).
  - unfold CInt.INT_MAX. simpl. lia.
  - split; [by apply Hsame|by apply Hret].
Defined.

(** *** Stealing *)

(** The only step of [ws_steal] that writes is the successful
    compare-and-swap, and it writes [top] alone. *)
Lemma steal_step_effect o q f :
  (steal_step o q f).1 = q \/
  (spc f = S_cas /\ top q = s_t f /\
   steal_step o q f
   = (mkWSQ (tasks q) (CInt.wrap_int (top q + 1)) (bottom q) (capacity q),
      mkSteal (S_ret (s_task f)) (s_t f) (s_b f) (s_task f))).
Proof.
  unfold steal_step. destruct (spc f) eqn:Hpc; simpl; try (by left).
  - left. by destruct (bottom q <=? s_t f).
  - left. destruct (capacity q =? 0); [done|].
    by destruct (tasks q !! slot (s_t f) q).
  - destruct (Z.eqb_spec (top q) (s_t f)) as [Heq|Hne]; [|by left].
    right. by rewrite Heq.
Qed.

Lemma ws_steal_empty q :
  bottom q <= top q ->
  ws_steal q = (q, mkSteal (S_ret NULL) (top q) (bottom q) NULL).
Proof.
  intros Hle. unfold ws_steal.
  erewrite run_alone_next; [|done|reflexivity].
  erewrite run_alone_next; [|done|].
  2:{ unfold steal_step. simpl.
      destruct (Z.leb_spec (bottom q) (top q)); [|exfalso; lia]. reflexivity. }
  by rewrite run_alone_final.
Qed.

Lemma ws_steal_takes q x :
  top q < bottom q -> capacity q <> 0 ->
  tasks q !! slot (top q) q = Some x ->
  ws_steal q
  = (mkWSQ (tasks q) (CInt.wrap_int (top q + 1)) (bottom q) (capacity q),
     mkSteal (S_ret x) (top q) (bottom q) x).
Proof.
  intros Hlt Hc Hx. unfold ws_steal.
  erewrite run_alone_next; [|done|reflexivity].
  erewrite run_alone_next; [|done|].
  2:{ unfold steal_step. simpl.
      destruct (Z.leb_spec (bottom q) (top q)); [exfalso; lia|]. reflexivity. }
  erewrite run_alone_next; [|done|].
  2:{ unfold steal_step. simpl.
      destruct (Z.eqb_spec (capacity q) 0); [exfalso; done|].
      rewrite Hx. reflexivity. }
  erewrite run_alone_next; [|done|].
  2:{ unfold steal_step. simpl. rewrite Z.eqb_refl. reflexivity. }
  done.
Qed.

(** Two thieves race for the only task (21) of a deque: both read
    [top = 0] and the task, thief 0 wins the compare-and-swap. *)
Definition one_task : WorkStealingQueue := mkWSQ [21; 0] 0 1 2.

Definition race_lost : WorkStealingQueue * list steal_frame :=
  run_schedule steal_step (one_task, [steal_start; steal_start])
    ((λ i, (i, ())) <$> [0; 0; 0; 1; 1; 1; 0]%nat).

(** C10: no step of [ws_steal] modifies [bottom], the capacity or any slot
    of the task array, in any interleaving; the only step that changes the
    deque is the successful compare-and-swap, which finds [top] as read,
    increments it by one and returns the item read.  Run alone on a deque
    satisfying the invariant, a steal from a non-empty deque returns the
    item at slot [top mod capacity] and increments [top] by exactly one; a
    steal that finds [top >= bottom] returns NULL and leaves the deque
    unchanged, and so does one whose compare-and-swap finds [top]
    changed. *)
Theorem ws_steal_frame :
  (forall o q f,
     bottom (steal_step o q f).1 = bottom q /\
     tasks (steal_step o q f).1 = tasks q /\
     capacity (steal_step o q f).1 = capacity q) /\
  (forall o q f,
     (steal_step o q f).1 <> q ->
     spc f = S_cas /\ top q = s_t f /\
     top (steal_step o q f).1 = CInt.wrap_int (top q + 1) /\
     (CInt.INT_MIN <= top q < CInt.INT_MAX ->
      top (steal_step o q f).1 = top q + 1) /\
     steal_returned (steal_step o q f).2 = Some (s_task f)) /\
  (forall o q f,
     spc f = S_cas -> top q <> s_t f ->
     (steal_step o q f).1 = q /\
     steal_returned (steal_step o q f).2 = Some NULL) /\
  (forall q,
     bottom q <= top q ->
     (ws_steal q).1 = q /\ steal_returned (ws_steal q).2 = Some NULL) /\
  (forall q,
     wsq_ok q -> top q < bottom q ->
     exists x,
       tasks q !! Z.to_nat (top q mod capacity q) = Some x /\
       steal_returned (ws_steal q).2 = Some x /\
       (ws_steal q).1 = mkWSQ (tasks q) (top q + 1) (bottom q) (capacity q)).
Proof.
  split_and!.
  - intros o q f.
    destruct (steal_step_effect o q f) as [->|(_ & _ & ->)]; done.
  - intros o q f Hne.
    destruct (steal_step_effect o q f) as [|(Hpc & Ht & ->)]; [done|].
    simpl. split_and!; try done.
    intros Hr. apply CInt.wrap_int_id. unfold CInt.in_int. lia.
  - intros o q f Hpc Hne. unfold steal_step. rewrite Hpc.
    by destruct (Z.eqb_spec (top q) (s_t f)).
  - intros q Hle. by rewrite ws_steal_empty.
  - intros q [Ht Ho Hs Hb Hc Hl] Hlt.
    destruct (slot_ok (top q) q) as [Hslot Hin]; [lia|lia|done|].
    destruct (lookup_lt_is_Some_2 (tasks q) (slot (top q) q) Hin) as [x Hx].
    exists x. rewrite (ws_steal_takes q x) by (done || lia).
    rewrite <- Hslot. simpl.
    rewrite CInt.wrap_int_id
      by (unfold CInt.in_int, CInt.INT_MIN, CInt.INT_MAX in *; lia).
    done.
Qed.

Lemma ws_steal_frame_witness :
  ws_steal three_of_four
  = (mkWSQ [11; 12; 13; 0] 1 3 4, mkSteal (S_ret 11) 0 3 11) /\
  race_lost.1 = mkWSQ [21; 0] 1 1 2 /\
  race_lost.2 !! 1%nat = Some (mkSteal S_cas 0 1 21) /\
  (steal_step () race_lost.1 (mkSteal S_cas 0 1 21)).1 = race_lost.1 /\
  steal_returned (steal_step () race_lost.1 (mkSteal S_cas 0 1 21)).2
  = Some NULL.
Proof.
  do 3 (split; [reflexivity|]).
  destruct ws_steal_frame as (_ & _ & Hlost & _).
  apply (Hlost () race_lost.1 (mkSteal S_cas 0 1 21)); [reflexivity|].
  vm_compute. discriminate.
Defined.

(** *** The owner and the thieves together *)

(** One owner pushes task after task while any number of thieves steal. *)
Inductive worker :=
| Owner (f : push_frame)
| Thief (f : steal_frame).

Definition worker_step (task : Z) (q : WorkStealingQueue) (w : worker)
  : WorkStealingQueue * worker :=
  match w with
  | Owner f =>
      if push_done f then (q, Owner (push_start task))
      else let '(q', f') := push_step () q f in (q', Owner f')
  | Thief f =>
      if steal_done f then (q, Thief steal_start)
      else let '(q', f') := steal_step () q f in (q', Thief f')
  end.

Definition crew (task : Z) (thieves : nat) : list worker :=
  Owner (push_start task) :: replicate thieves (Thief steal_start).

(** States reached by steps taken while [bottom] can still be
    incremented. *)
Inductive crew_reachable (init : WorkStealingQueue * list worker)
  : WorkStealingQueue * list worker -> Prop :=
| crew_init : crew_reachable init init
| crew_step c ev :
    crew_reachable init c -> bottom c.1 < CInt.INT_MAX ->
    crew_reachable init (sched_step worker_step c ev).

(** What the owner knows at each program point. *)
Definition owner_ok (q : WorkStealingQueue) (f : push_frame) : Prop :=
  match ppc f with
  | P_load_bottom | P_ret _ => True
  | P_load_top => p_b f = bottom q
  | P_write | P_publish =>
      p_b f = bottom q /\ p_t f <= top q /\ p_b f - p_t f < capacity q
  | P_fault => False
  end.

(** What a thief knows at each program point: the index it read is behind
    [top], and while [top] still is that index the slot holds the item it
    read. *)
Definition thief_ok (q : WorkStealingQueue) (f : steal_frame) : Prop :=
  match spc f with
  | S_load_top | S_ret _ => True
  | S_load_bottom => 0 <= s_t f <= top q
  | S_read => 0 <= s_t f <= top q /\ s_t f < s_b f <= bottom q
  | S_cas =>
      0 <= s_t f <= top q /\ s_t f < s_b f <= bottom q /\
      (top q = s_t f -> tasks q !! slot (s_t f) q = Some (s_task f))
  | S_fault => False
  end.

(** What every step guarantees to the thieves: the indices only grow and
    no live slot is overwritten. *)
Definition live_kept (q q' : WorkStealingQueue) : Prop :=
  capacity q' = capacity q /\ top q <= top q' /\ bottom q <= bottom q' /\
  forall t, top q' <= t < bottom q ->
            tasks q' !! slot t q' = tasks q !! slot t q.

Definition crew_inv (c : WorkStealingQueue * list worker) : Prop :=
  wsq_ok c.1 /\ 0 < capacity c.1 /\
  exists f ths, c.2 = Owner f :: (Thief <$> ths) /\
                owner_ok c.1 f /\ Forall (thief_ok c.1) ths.

Lemma live_kept_refl q : live_kept q q.
Proof. unfold live_kept. split_and!; (done || lia). Qed.

Lemma thief_ok_stable q q' f : live_kept q q' -> thief_ok q f -> thief_ok q' f.
Proof.
  intros (Hc & Ht & Hb & Hlive). unfold thief_ok.
  destruct (spc f); try done; try lia.
  intros (H1 & H2 & H3). split_and!; try lia.
    intros Heq. rewrite Hlive by lia. apply H3. lia.
Qed.

Lemma owner_ok_stable q q' f :
  capacity q' = capacity q -> bottom q' = bottom q -> top q <= top q' ->
  owner_ok q f -> owner_ok q' f.
Proof.
  intros Hc Hb Ht. unfold owner_ok. rewrite Hc, Hb.
  destruct (ppc f); try done; lia.
Qed.

(** Two indices less than the capacity apart are in different slots. *)
Lemma slot_apart i j q :
  0 <= i -> i < j -> j - i < capacity q -> j <= CInt.INT_MAX ->
  slot i q <> slot j q.
Proof.
  intros Hi Hij Hc Hj. unfold slot, CInt.INT_MAX in *.
  rewrite !CInt.to_size_t_id by lia. intros Heq.
  pose proof (Z.mod_pos_bound i (capacity q) ltac:(lia)) as Hbi.
  pose proof (Z.mod_pos_bound j (capacity q) ltac:(lia)) as Hbj.
  assert (i mod capacity q = j mod capacity q) as Hm by lia.
  assert ((j - i) mod capacity q = 0) as Hz.
  { rewrite Zminus_mod, Hm, Z.sub_diag. apply Z.mod_0_l. lia. }
  rewrite Z.mod_small in Hz by lia. lia.
Qed.

Lemma push_step_inv q f :
  wsq_ok q -> 0 < capacity q -> owner_ok q f -> bottom q < CInt.INT_MAX ->
  wsq_ok (push_step () q f).1 /\
  owner_ok (push_step () q f).1 (push_step () q f).2 /\
  live_kept q (push_step () q f).1.
Proof.
  intros Hok Hcap Hf Hb. pose proof Hok as [Ht Ho Hs Hb' Hc Hl].
  unfold owner_ok in Hf. unfold push_step.
  destruct (ppc f) eqn:Hpc; simpl.
  - split_and!; [done|by unfold owner_ok|apply live_kept_refl].
  - rewrite Hf, is_full_ok by done.
    case_bool_decide as Hfull; simpl.
    + split_and!; [done|by unfold owner_ok|apply live_kept_refl].
    + split_and!; [done| |apply live_kept_refl].
      unfold owner_ok; simpl. lia.
  - destruct Hf as (Hpb & Hpt & Hfree).
    destruct (slot_ok (p_b f) q) as [_ Hin]; [lia|lia|done|].
    rewrite decide_True by done. simpl. split_and!.
    + split; simpl; try done. by rewrite length_insert.
    + unfold owner_ok; simpl. done.
    + unfold live_kept; simpl. split_and!; try done; try lia.
      intros t Hlive. apply list_lookup_insert_ne.
      apply not_eq_sym, slot_apart; lia.
  - destruct Hf as (Hpb & Hpt & Hfree).
    rewrite CInt.wrap_int_id
      by (unfold CInt.in_int, CInt.INT_MIN, CInt.INT_MAX in *; lia).
    split_and!.
    + split; simpl; try done; lia.
    + by unfold owner_ok.
    + unfold live_kept; simpl. split_and!; try done; lia.
  - split_and!; [done|unfold owner_ok; by rewrite Hpc|apply live_kept_refl].
  - done.
Qed.

Lemma steal_step_inv q f :
  wsq_ok q -> 0 < capacity q -> thief_ok q f ->
  wsq_ok (steal_step () q f).1 /\
  thief_ok (steal_step () q f).1 (steal_step () q f).2 /\
  live_kept q (steal_step () q f).1 /\
  bottom (steal_step () q f).1 = bottom q.
Proof.
  intros Hok Hcap Hf. pose proof Hok as [Ht Ho Hs Hb Hc Hl].
  unfold thief_ok in Hf. unfold steal_step.
  destruct (spc f) eqn:Hpc; simpl.
  - split_and!; [done| |apply live_kept_refl|done].
    unfold thief_ok; simpl. lia.
  - destruct (Z.leb_spec (bottom q) (s_t f)); simpl.
    + split_and!; [done|by unfold thief_ok|apply live_kept_refl|done].
    + split_and!; [done| |apply live_kept_refl|done].
      unfold thief_ok; simpl. lia.
  - destruct Hf as (Hst & Hsb).
    destruct (Z.eqb_spec (capacity q) 0); [lia|].
    destruct (slot_ok (s_t f) q) as [_ Hin]; [lia|lia|done|].
    destruct (lookup_lt_is_Some_2 _ _ Hin) as [x Hx]. rewrite Hx. simpl.
    split_and!; [done| |apply live_kept_refl|done].
    unfold thief_ok; simpl. done.
  - destruct Hf as (Hst & Hsb & Hslot).
    destruct (Z.eqb_spec (top q) (s_t f)) as [Heq|Hne]; simpl.
    + rewrite CInt.wrap_int_id
        by (unfold CInt.in_int, CInt.INT_MIN, CInt.INT_MAX in *; lia).
      split_and!; [|by unfold thief_ok| |done].
      * split; simpl; try done; lia.
      * unfold live_kept; simpl. split_and!; try done; lia.
    + split_and!; [done|by unfold thief_ok|apply live_kept_refl|done].
  - split_and!; [done|unfold thief_ok; by rewrite Hpc|apply live_kept_refl|done].
  - done.
Qed.

Lemma crew_inv_step c ev :
  crew_inv c -> bottom c.1 < CInt.INT_MAX ->
  crew_inv (sched_step worker_step c ev).
Proof.
  destruct c as [q ws], ev as [i task].
  intros (Hok & Hcap & f & ths & Hws & Hf & Hths) Hb. simpl in *. subst ws.
  unfold sched_step. simpl. destruct i as [|i]; simpl.
  - (* the owner moves *)
    destruct (push_done f) eqn:Hdone; simpl.
    + unfold crew_inv; simpl; split_and!; [done|done|]. exists (push_start task), ths.
      split_and!; [done|by unfold owner_ok|done].
    + destruct (push_step_inv q f Hok Hcap Hf Hb) as (Hok' & Hf' & Hkept).
      destruct (push_step () q f) as [q' f']. simpl in *.
      unfold crew_inv; simpl; split_and!; [done|destruct Hkept as (Hc' & _); simpl; lia|].
      exists f', ths. unfold crew_inv; simpl; split_and!; [done|done|].
      eapply Forall_impl; [exact Hths|].
      intros g. by apply thief_ok_stable.
  - (* a thief moves *)
    rewrite list_lookup_fmap.
    destruct (ths !! i) as [g|] eqn:Hi; simpl.
    2:{ unfold crew_inv; simpl; split_and!; [done|done|]. by exists f, ths. }
    assert (thief_ok q g) as Hg by (eapply Forall_lookup_1; eauto).
    destruct (steal_done g) eqn:Hdone; simpl.
    + unfold crew_inv; simpl; split_and!; [done|done|]. exists f, (<[i:=steal_start]> ths).
      split_and!; [by rewrite list_fmap_insert|done|].
      apply Forall_insert; [done|by unfold thief_ok].
    + destruct (steal_step_inv q g Hok Hcap Hg) as (Hok' & Hg' & Hkept & Hbot).
      destruct (steal_step () q g) as [q' g']. simpl in *.
      pose proof Hkept as (Hc' & Ht' & _).
      unfold crew_inv; simpl; split_and!; [done|lia|]. exists f, (<[i:=g']> ths).
      split_and!; [by rewrite list_fmap_insert| |].
      * by apply (owner_ok_stable q).
      * apply Forall_insert; [|done].
        eapply Forall_impl; [exact Hths|].
        intros h. by apply thief_ok_stable.
Qed.

(** In every state of the owner and the thieves reached from a deque that
    satisfies the invariant, the invariant holds, and a thief about to win
    its compare-and-swap holds the item that is in slot [top]. *)
Lemma crew_reachable_ok q0 task n c :
  wsq_ok q0 -> 0 < capacity q0 ->
  crew_reachable (q0, crew task n) c ->
  wsq_ok c.1 /\
  forall i f,
    c.2 !! i = Some (Thief f) -> spc f = S_cas -> top c.1 = s_t f ->
    tasks c.1 !! slot (top c.1) c.1 = Some (s_task f).
Proof.
  intros Hok Hcap Hreach.
  assert (crew_inv c) as (Hok' & _ & f & ths & Hws & _ & Hths).
  { induction Hreach as [|c ev _ IH Hb].
    - split_and!; [done|done|]. exists (push_start task), (replicate n steal_start).
      split_and!; [by rewrite fmap_replicate|by unfold owner_ok|].
      by apply Forall_replicate.
    - by apply crew_inv_step. }
  split; [done|]. intros i g Hi Hpc Htop. rewrite Hws in Hi.
  destruct i as [|i]; simpl in Hi; [done|].
  rewrite list_lookup_fmap in Hi.
  destruct (ths !! i) as [g'|] eqn:Hg; simplify_eq/=.
  pose proof (Forall_lookup_1 _ _ _ _ Hths Hg) as Hok_g.
  unfold thief_ok in Hok_g. rewrite Hpc in Hok_g.
  destruct Hok_g as (_ & _ & Hslot). rewrite Htop. by apply Hslot.
Qed.

(** *** The deque as a list *)

(** The item in the slot of index [i] (NULL outside the array). *)
Definition item (q : WorkStealingQueue) (i : Z) : Z :=
  default NULL (tasks q !! slot i q).

(** The items the deque holds, oldest first: the slots of the indices
    [top], ..., [bottom - 1]. *)
Definition contents (q : WorkStealingQueue) : list Z :=
  (λ k, item q (top q + Z.of_nat k)) <$> seq 0 (Z.to_nat (bottom q - top q)).

Lemma contents_ext q q' :
  top q' = top q -> bottom q' = bottom q -> capacity q' = capacity q ->
  (forall i, top q <= i < bottom q -> item q' i = item q i) ->
  contents q' = contents q.
Proof.
  intros Ht Hb Hc Hi. unfold contents. rewrite Ht, Hb.
  apply list_eq. intros k. rewrite !list_lookup_fmap.
  destruct (seq 0 (Z.to_nat (bottom q - top q)) !! k) as [j|] eqn:Hj; [|done].
  apply lookup_seq in Hj as [-> Hlt]. simpl. f_equal. apply Hi. lia.
Qed.

Lemma contents_empty q : bottom q <= top q -> contents q = [].
Proof.
  intros Hle. unfold contents.
  replace (Z.to_nat (bottom q - top q)) with 0%nat by lia. done.
Qed.

(** Moving [top] forward drops the oldest item. *)
Lemma contents_top_succ q :
  top q < bottom q ->
  contents q
  = item q (top q)
    :: contents (mkWSQ (tasks q) (top q + 1) (bottom q) (capacity q)).
Proof.
  intros Hlt. unfold contents; simpl.
  replace (Z.to_nat (bottom q - top q))
    with (S (Z.to_nat (bottom q - (top q + 1)))) by lia.
  rewrite <- cons_seq, fmap_cons.
  replace (top q + Z.of_nat 0) with (top q) by lia. f_equal.
  rewrite <- fmap_S_seq, <- list_fmap_compose.
  apply list_fmap_ext. intros _ k _. simpl. unfold item, slot; simpl.
  by replace (top q + Z.of_nat (S k)) with (top q + 1 + Z.of_nat k) by lia.
Qed.

(** Moving [bottom] forward adds the item of the slot of the old
    [bottom]. *)
Lemma contents_bottom_succ q :
  top q <= bottom q ->
  contents (mkWSQ (tasks q) (top q) (bottom q + 1) (capacity q))
  = contents q ++ [item q (bottom q)].
Proof.
  intros Hle. unfold contents; simpl.
  replace (Z.to_nat (bottom q + 1 - top q))
    with (S (Z.to_nat (bottom q - top q))) by lia.
  rewrite seq_S, fmap_app. simpl. f_equal. f_equal.
  unfold item, slot; simpl.
  by replace (top q + Z.of_nat (Z.to_nat (bottom q - top q)))
    with (bottom q) by lia.
Qed.

(** The owner's store into the slot of [bottom] overwrites no item the
    deque holds. *)
Lemma contents_write_free q x :
  wsq_ok q -> bottom q - top q < capacity q ->
  contents (mkWSQ (<[slot (bottom q) q := x]> (tasks q))
                  (top q) (bottom q) (capacity q))
  = contents q.
Proof.
  intros [Ht Ho Hs Hb Hc Hl] Hfree. apply contents_ext; try done.
  intros i Hi. unfold item; simpl. f_equal.
  change (slot ?j (mkWSQ _ _ _ (capacity q))) with (slot j q).
  apply list_lookup_insert_ne. apply not_eq_sym, slot_apart; lia.
Qed.

Lemma item_written q i x :
  (slot i q < length (tasks q))%nat ->
  item (mkWSQ (<[slot i q := x]> (tasks q)) (top q) (bottom q) (capacity q)) i
  = x.
Proof.
  intros Hin. unfold item; simpl.
  change (slot i (mkWSQ _ _ _ (capacity q))) with (slot i q).
  by rewrite list_lookup_insert_eq.
Qed.


Lemma ws_push_snoc q task :
  wsq_ok q -> bottom q - top q < capacity q -> bottom q < CInt.INT_MAX ->
  ws_push q task
  = (mkWSQ (<[slot (bottom q) q := task]> (tasks q)) (top q) (bottom q + 1)
           (capacity q),
     mkPush (P_ret 0) task (bottom q) (top q)) /\
  contents (ws_push q task).1 = contents q ++ [task] /\
  wsq_ok (ws_push q task).1.
Proof.
  intros Hok Hfree Hb. pose proof (is_full_ok q Hok) as Hfull.
  pose proof Hok as [Ht Ho Hs Hb' Hc Hl].
  rewrite bool_decide_eq_false_2 in Hfull by lia.
  destruct (slot_ok (bottom q) q) as [_ Hin]; [lia|lia|done|].
  rewrite ws_push_accepts by done.
  rewrite CInt.wrap_int_id
    by (unfold CInt.in_int, CInt.INT_MIN, CInt.INT_MAX in *; lia).
  split; [done|]. simpl. split.
  - pose proof (contents_bottom_succ
                  (mkWSQ (<[slot (bottom q) q := task]> (tasks q))
                         (top q) (bottom q) (capacity q)) Ho) as Hsucc.
    simpl in Hsucc. rewrite Hsucc.
    change (slot (bottom q) (mkWSQ _ _ _ (capacity q)))
      with (slot (bottom q) q).
    rewrite contents_write_free by done.
    by rewrite (item_written q (bottom q) task Hin).
  - split; simpl; try done; try lia. by rewrite length_insert.
Qed.

Lemma ws_steal_head q :
  wsq_ok q -> top q < bottom q ->
  ws_steal q
  = (mkWSQ (tasks q) (top q + 1) (bottom q) (capacity q),
     mkSteal (S_ret (item q (top q))) (top q) (bottom q) (item q (top q))) /\
  contents q = item q (top q) :: contents (ws_steal q).1 /\
  wsq_ok (ws_steal q).1.
Proof.
  intros Hok Hlt. pose proof Hok as [Ht Ho Hs Hb Hc Hl].
  destruct (slot_ok (top q) q) as [_ Hin]; [lia|lia|done|].
  destruct (lookup_lt_is_Some_2 (tasks q) (slot (top q) q) Hin) as [x Hx].
  rewrite (ws_steal_takes q x) by (done || lia).
  rewrite CInt.wrap_int_id
    by (unfold CInt.in_int, CInt.INT_MIN, CInt.INT_MAX in *; lia).
  assert (item q (top q) = x) as -> by (unfold item; by rewrite Hx).
  split; [done|]. simpl. split.
  - rewrite (contents_top_succ q Hlt). unfold item at 1. by rewrite Hx.
  - split; simpl; try done; lia.
Qed.

(** A deque of capacity 4 that holds the one task 13, after [INT_MAX]
    pushes and [INT_MAX - 1] steals. *)
Definition at_max : WorkStealingQueue :=
  mkWSQ [11; 12; 13; 0] (CInt.INT_MAX - 1) CInt.INT_MAX 4.

(** C7: on the deque [at_max], which satisfies the invariant and is not
    full, [ws_push] writes the item into slot [bottom mod capacity] and
    returns 0, but it does not publish [bottom + 1]: the [int] sum
    [b + 1] wraps and [INT_MIN] is stored into [bottom].  The deque then
    counts as empty: the task pushed and the task it held are lost to
    [ws_steal]. *)
Lemma ws_push_wraps_at_int_max :
  wsq_ok at_max /\
  (bottom at_max - top at_max <> capacity at_max) /\
  (contents at_max = [13]) /\
  (ws_push at_max 15
   = (mkWSQ [11; 12; 13; 15] (CInt.INT_MAX - 1) CInt.INT_MIN 4,
      mkPush (P_ret 0) 15 CInt.INT_MAX (CInt.INT_MAX - 1))) /\
  (bottom (ws_push at_max 15).1 <> bottom at_max + 1) /\
  (contents (ws_push at_max 15).1 = []) /\
  (steal_returned (ws_steal (ws_push at_max 15).1).2 = Some NULL).
Proof.
  split; [split; simpl; unfold CInt.INT_MAX; lia|].
  split; [vm_compute; discriminate|].
  split; [reflexivity|].
  split; [reflexivity|].
  split; [vm_compute; discriminate|].
  split; reflexivity.
Qed.

(** X1: on a deque that satisfies the invariant and is not full, [ws_push]
    appends the task to the items the deque holds (the slots from [top] to
    [bottom - 1], oldest first) and keeps the invariant: no held item is
    overwritten by the store into slot [bottom mod capacity]. *)
Theorem ws_push_appends q task :
  wsq_ok q -> bottom q - top q < capacity q -> bottom q < CInt.INT_MAX ->
  push_returned (ws_push q task).2 = Some 0 /\
  contents (ws_push q task).1 = contents q ++ [task] /\
  wsq_ok (ws_push q task).1.
Proof.
  intros Hok Hfree Hb.
  destruct (ws_push_snoc q task Hok Hfree Hb) as (Heq & Hc & Hok').
  split; [by rewrite Heq|done].
Qed.

Lemma ws_push_appends_witness :
  contents three_of_four = [11; 12; 13] /\
  contents (ws_push three_of_four 14).1 = [11; 12; 13; 14] /\
  wsq_ok (ws_push three_of_four 14).1.
Proof.
  split; [reflexivity|].
  destruct (ws_push_appends three_of_four 14 three_of_four_ok)
    as (_ & Hc & Hok).
  - simpl. lia.
  - unfold CInt.INT_MAX. simpl. lia.
  - split; [exact Hc|exact Hok].
Defined.

(** X2: on a deque that satisfies the invariant, [ws_steal] run alone
    removes and returns the oldest item the deque holds, leaving the others
    in order, and keeps the invariant; on a deque that holds nothing it
    returns NULL and changes nothing. *)
Theorem ws_steal_takes_oldest q :
  wsq_ok q ->
  match contents q with
  | [] => ws_steal q = (q, mkSteal (S_ret NULL) (top q) (bottom q) NULL)
  | x :: rest =>
      steal_returned (ws_steal q).2 = Some x /\
      contents (ws_steal q).1 = rest /\
      wsq_ok (ws_steal q).1
  end.
Proof.
  intros Hok. pose proof Hok as [Ht Ho Hs Hb Hc Hl].
  destruct (decide (top q < bottom q)) as [Hlt|Hge].
  - destruct (ws_steal_head q Hok Hlt) as (Heq & Hcont & Hok').
    rewrite Hcont. split_and!; [by rewrite Heq|done|done].
  - rewrite contents_empty by lia. apply ws_steal_empty. lia.
Qed.

Lemma ws_steal_takes_oldest_witness :
  steal_returned (ws_steal three_of_four).2 = Some 11 /\
  contents (ws_steal three_of_four).1 = [12; 13] /\
  wsq_ok (ws_steal three_of_four).1.
Proof. exact (ws_steal_takes_oldest three_of_four three_of_four_ok). Defined.







(** *** The items under concurrent pushes and steals *)

(** Between its store and its publication the owner's task is in the slot
    of [bottom]. *)
Definition owner_written (c : WorkStealingQueue * list worker) : Prop :=
  forall f, c.2 !! 0%nat = Some (Owner f) -> ppc f = P_publish ->
            item c.1 (p_b f) = p_task f.

Lemma crew_inv_init q0 task n :
  wsq_ok q0 -> 0 < capacity q0 ->
  crew_inv (q0, crew task n) /\ owner_written (q0, crew task n).
Proof.
  intros Hok Hcap. split.
  - split_and!; [done|done|].
    exists (push_start task), (replicate n steal_start).
    split_and!; [by rewrite fmap_replicate|by unfold owner_ok|].
    by apply Forall_replicate.
  - intros f Hf Hpc. simpl in Hf. by simplify_eq.
Qed.

Lemma owner_written_step c ev :
  crew_inv c -> owner_written c ->
  owner_written (sched_step worker_step c ev).
Proof.
  destruct c as [q ws], ev as [i task].
  intros (Hok & Hcap & f & ths & Hws & Hf & Hths) Hw. simpl in *. subst ws.
  pose proof Hok as [Ht Ho Hs Hb Hc Hl].
  unfold sched_step, owner_written in *. simpl in *.
  destruct i as [|i]; simpl.
  - (* the owner moves *)
    destruct (push_done f) eqn:Hdone; simpl.
    + intros g Hg Hpc. by simplify_eq.
    + unfold push_step, push_done, owner_ok in *.
      destruct (ppc f) eqn:Hpc; simpl; try done.
      * intros g Hg Hpc'. by simplify_eq.
      * destruct (is_full (p_b f) (top q) q); simpl;
          intros g Hg Hpc'; by simplify_eq.
      * destruct Hf as (Hpb & Hpt & Hfree).
        destruct (slot_ok (p_b f) q) as [_ Hin]; [lia|lia|done|].
        rewrite decide_True by done. simpl.
        intros g Hg Hpc'. simplify_eq. simpl.
        by apply (item_written q (p_b f) (p_task f)).
      * intros g Hg Hpc'. by simplify_eq.
  - (* a thief moves *)
    rewrite list_lookup_fmap.
    destruct (ths !! i) as [g|] eqn:Hi; simpl; [|done].
    destruct (steal_done g); simpl; [done|].
    destruct (steal_step_effect () q g) as [Hsame|(_ & _ & Hstep)].
    + destruct (steal_step () q g) as [q' g']. simpl in *. by subst q'.
    + rewrite Hstep. simpl. intros h Hh Hpc. simplify_eq.
      by apply (Hw h).
Qed.

Lemma crew_reachable_inv q0 task n c :
  wsq_ok q0 -> 0 < capacity q0 ->
  crew_reachable (q0, crew task n) c ->
  crew_inv c /\ owner_written c.
Proof.
  intros Hok Hcap Hreach. induction Hreach as [|c ev _ [IH1 IH2] Hb].
  - by apply crew_inv_init.
  - split; [by apply crew_inv_step|by apply owner_written_step].
Qed.

(** A schedule run from [c], as long as [bottom] can be incremented. *)
Fixpoint crew_run (c : WorkStealingQueue * list worker) (sch : list (nat * Z))
  : option (WorkStealingQueue * list worker) :=
  match sch with
  | [] => Some c
  | ev :: sch' =>
      if bottom c.1 <? CInt.INT_MAX
      then crew_run (sched_step worker_step c ev) sch'
      else None
  end.

Lemma crew_run_reachable init sch : forall c c',
  crew_reachable init c -> crew_run c sch = Some c' -> crew_reachable init c'.
Proof.
  induction sch as [|ev sch IH]; intros c c' Hc Hrun; simpl in Hrun.
  - by simplify_eq.
  - destruct (Z.ltb_spec (bottom c.1) CInt.INT_MAX); [|done].
    eapply IH; [|done]. by constructor.
Qed.

(** The owner is about to publish task 14 on a deque holding 11, 12, 13,
    while a thief has read [top] and the oldest task. *)
Definition crew_demo : WorkStealingQueue * list worker :=
  (mkWSQ [11; 12; 13; 14] 0 3 4,
   [Owner (mkPush P_publish 14 3 0); Thief (mkSteal S_cas 0 3 11)]).

Lemma crew_demo_reachable : crew_reachable (three_of_four, crew 14 1) crew_demo.
Proof.
  apply (crew_run_reachable _
           ((λ i, (i, 0)) <$> [0; 0; 0; 1; 1; 1]%nat)
           (three_of_four, crew 14 1)); [constructor|reflexivity].
Qed.

(** What one step of the crew does to the items of the deque. *)
Inductive step_effect (c c' : WorkStealingQueue * list worker) (i : nat)
  : Prop :=
| effect_none :
    contents c'.1 = contents c.1 ->
    (forall g g' r,
       c.2 !! i = Some (Thief g) -> steal_done g = false ->
       c'.2 !! i = Some (Thief g') -> steal_returned g' = Some r ->
       r = NULL) ->
    step_effect c c' i
| effect_published f :
    c.2 !! i = Some (Owner f) -> ppc f = P_publish ->
    contents c'.1 = contents c.1 ++ [p_task f] ->
    step_effect c c' i
| effect_stolen g g' x :
    c.2 !! i = Some (Thief g) -> spc g = S_cas ->
    c'.2 !! i = Some (Thief g') -> steal_returned g' = Some x ->
    contents c.1 = x :: contents c'.1 ->
    step_effect c c' i.

Lemma crew_step_effect_inv c ev :
  crew_inv c -> owner_written c -> bottom c.1 < CInt.INT_MAX ->
  step_effect c (sched_step worker_step c ev) ev.1.
Proof.
  destruct c as [q ws], ev as [i task].
  intros (Hok & Hcap & f & ths & Hws & Hf & Hths) Hw Hbot. simpl in *.
  subst ws. pose proof Hok as [Ht Ho Hs Hb Hc Hl].
  unfold sched_step. simpl. destruct i as [|i]; simpl.
  - (* the owner moves *)
    assert (forall q' w',
              contents q' = contents q ->
              step_effect (q, Owner f :: (Thief <$> ths))
                          (q', w' :: (Thief <$> ths)) 0) as Hquiet.
    { intros q' w' Hq. apply effect_none; [done|].
      simpl. intros ? ? ? Hg. discriminate Hg. }
    destruct (push_done f) eqn:Hdone; simpl.
    { by apply Hquiet. }
    unfold push_step, push_done, owner_ok in *.
    destruct (ppc f) eqn:Hpc; simpl; try done.
    + by apply Hquiet.
    + destruct (is_full (p_b f) (top q) q); by apply Hquiet.
    + destruct Hf as (Hpb & Hpt & Hfree).
      destruct (slot_ok (p_b f) q) as [_ Hin]; [lia|lia|done|].
      rewrite decide_True by done. apply Hquiet.
      rewrite Hpb. apply contents_write_free; [done|lia].
    + destruct Hf as (Hpb & Hpt & Hfree).
      apply (effect_published _ _ _ f); [done|done|]. simpl.
      rewrite CInt.wrap_int_id
        by (unfold CInt.in_int, CInt.INT_MIN, CInt.INT_MAX in *; lia).
      rewrite Hpb, (contents_bottom_succ q Ho). f_equal. f_equal.
      rewrite <- Hpb. by apply (Hw f).
  - (* a thief moves *)
    rewrite list_lookup_fmap.
    destruct (ths !! i) as [g|] eqn:Hi; simpl.
    2:{ apply effect_none; [done|]. simpl. intros g g' r Hg.
        rewrite list_lookup_fmap, Hi in Hg. done. }
    assert (thief_ok q g) as Hg by (eapply Forall_lookup_1; eauto).
    assert (i < length ths)%nat as Hlen by (by eapply lookup_lt_Some).
    destruct (steal_done g) eqn:Hdone; simpl.
    { apply effect_none; [done|]. simpl. intros h h' r Hh Hnd.
      rewrite list_lookup_fmap, Hi in Hh. simplify_eq/=. congruence. }
    assert (forall g',
              steal_returned g' = None \/ steal_returned g' = Some NULL ->
              step_effect (q, Owner f :: (Thief <$> ths))
                (q, Owner f :: <[i:=Thief g']> (Thief <$> ths)) (S i))
      as Hquiet.
    { intros g' Hret. apply effect_none; [done|].
      simpl. intros h h' r _ _ Hh' Hr.
      rewrite list_lookup_insert_eq in Hh' by (by rewrite length_fmap).
      simplify_eq. destruct Hret as [Hret|Hret]; congruence. }
    unfold steal_step, steal_done, thief_ok in *.
    destruct (spc g) eqn:Hpc; simpl; try done.
    + apply Hquiet. by left.
    + destruct (bottom q <=? s_t g); apply Hquiet; [by right|by left].
    + destruct (capacity q =? 0); [|destruct (tasks q !! slot (s_t g) q)];
        apply Hquiet; by left.
    + destruct Hg as (Hst & Hsb & Hslot).
      destruct (Z.eqb_spec (top q) (s_t g)) as [Heq|Hne].
      * apply (effect_stolen _ _ _ g
                 (mkSteal (S_ret (s_task g)) (s_t g) (s_b g) (s_task g))
                 (s_task g)); simpl; try done.
        -- rewrite list_lookup_fmap, Hi. done.
        -- apply list_lookup_insert_eq. by rewrite length_fmap.
        -- rewrite CInt.wrap_int_id
             by (unfold CInt.in_int, CInt.INT_MIN, CInt.INT_MAX in *; lia).
           pose proof (Hslot Heq) as Hit. rewrite <- Heq in Hit |- *.
           rewrite (contents_top_succ q) by lia.
           f_equal. unfold item. by rewrite Hit.
      * apply Hquiet. by right.
Qed.

Lemma crew_bottom_step c ev :
  crew_inv c -> bottom c.1 < CInt.INT_MAX ->
  bottom (sched_step worker_step c ev).1 <= bottom c.1 + 1.
Proof.
  destruct c as [q ws], ev as [i task].
  intros (Hok & Hcap & f & ths & Hws & Hf & Hths) Hb. simpl in *. subst ws.
  pose proof Hok as [Ht Ho Hs Hb' Hc Hl].
  unfold sched_step. simpl. destruct i as [|i]; simpl.
  - destruct (push_done f); simpl; [lia|].
    unfold push_step, owner_ok in *.
    destruct (ppc f) eqn:Hpc; simpl; try lia.
    + destruct (is_full (p_b f) (top q) q); simpl; lia.
    + destruct (decide _); simpl; lia.
    + destruct Hf as (Hpb & _). rewrite Hpb.
      rewrite CInt.wrap_int_id
        by (unfold CInt.in_int, CInt.INT_MIN, CInt.INT_MAX in *; lia).
      lia.
  - rewrite list_lookup_fmap.
    destruct (ths !! i) as [g|]; simpl; [|lia].
    destruct (steal_done g); simpl; [lia|].
    destruct (steal_step_effect () q g) as [Hsame|(_ & _ & Hstep)].
    + destruct (steal_step () q g) as [q' g']. simpl in *. subst q'. lia.
    + rewrite Hstep. simpl. lia.
Qed.

(** A schedule too short for [bottom] to reach [INT_MAX] only takes steps
    below it. *)
Lemma crew_schedule_reachable q0 task n sch : forall c,
  wsq_ok q0 -> 0 < capacity q0 ->
  crew_reachable (q0, crew task n) c ->
  bottom c.1 + Z.of_nat (length sch) <= CInt.INT_MAX ->
  crew_reachable (q0, crew task n) (run_schedule worker_step c sch) /\
  bottom (run_schedule worker_step c sch).1
    <= bottom c.1 + Z.of_nat (length sch).
Proof.
  induction sch as [|ev sch IH]; intros c Hok Hcap Hc Hb.
  - simpl. split; [done|lia].
  - rewrite length_cons in Hb. unfold run_schedule. simpl.
    destruct (crew_reachable_inv q0 task n c Hok Hcap Hc) as [Hinv _].
    pose proof (crew_bottom_step c ev Hinv ltac:(lia)) as Hstep.
    destruct (IH (sched_step worker_step c ev)) as [H1 H2];
      [done|done|constructor; [done|lia]|lia|].
    unfold run_schedule in *. split; [done|lia].
Qed.

(** X4: in every interleaving of the owner's pushes with any number of
    thieves, started on a deque that satisfies the invariant and too short
    for [bottom] to reach [INT_MAX] (one step adds at most one to it), a
    step changes the items the deque holds in one of two ways only: the
    owner's publication of [bottom + 1] appends the task it pushes, and a
    thief's winning compare-and-swap removes the oldest item and returns
    it.  Every other step leaves the items as they are, and a steal that
    returns by such a step returns NULL: no item is lost, handed out twice
    or reordered. *)
Theorem crew_step_effect q0 task n sch ev :
  wsq_ok q0 -> 0 < capacity q0 ->
  bottom q0 + Z.of_nat (length sch) < CInt.INT_MAX ->
  step_effect (run_schedule worker_step (q0, crew task n) sch)
    (sched_step worker_step
       (run_schedule worker_step (q0, crew task n) sch) ev)
    ev.1.
Proof.
  intros Hok Hcap Hb.
  destruct (crew_schedule_reachable q0 task n sch (q0, crew task n)
              Hok Hcap (crew_init _)) as [Hreach Hle]; [simpl; lia|].
  destruct (crew_reachable_inv q0 task n _ Hok Hcap Hreach) as [Hinv Hw].
  apply crew_step_effect_inv; [done|done|]. simpl in Hle. lia.
Qed.

Lemma crew_demo_run :
  run_schedule worker_step (three_of_four, crew 14 1)
    ((λ i, (i, 0)) <$> [0; 0; 0; 1; 1; 1]%nat)
  = crew_demo.
Proof. reflexivity. Qed.

Lemma crew_step_effect_witness :
  contents crew_demo.1 = [11; 12; 13] /\
  contents (sched_step worker_step crew_demo (1%nat, 0)).1 = [12; 13] /\
  step_effect crew_demo (sched_step worker_step crew_demo (1%nat, 0)) 1.
Proof.
  do 2 (split; [reflexivity|]).
  rewrite <- crew_demo_run.
  apply (crew_step_effect three_of_four 14 1
           ((λ i, (i, 0)) <$> [0; 0; 0; 1; 1; 1]%nat) (1%nat, 0)
           three_of_four_ok).
  - simpl. lia.
  - unfold CInt.INT_MAX. simpl. lia.
Defined.

(** X5: in every interleaving of the owner's pushes with any number of
    thieves, started on a deque that satisfies the invariant and too short
    for [bottom] to pass [INT_MAX] (one step adds at most one to it), the
    invariant holds ([0 <= top <= bottom], at most [capacity] items) and no
    worker faults: every array access of [ws_push] and [ws_steal] is within
    the [capacity] slots and no remainder is taken by zero. *)
Theorem crew_never_faults q0 task n sch :
  wsq_ok q0 -> 0 < capacity q0 ->
  bottom q0 + Z.of_nat (length sch) <= CInt.INT_MAX ->
  wsq_ok (run_schedule worker_step (q0, crew task n) sch).1 /\
  forall i w,
    (run_schedule worker_step (q0, crew task n) sch).2 !! i = Some w ->
    match w with
    | Owner f => ppc f <> P_fault
    | Thief f => spc f <> S_fault
    end.
Proof.
  intros Hok Hcap Hb.
  destruct (crew_schedule_reachable q0 task n sch (q0, crew task n)
              Hok Hcap (crew_init _)) as [Hreach _]; [simpl; lia|].
  destruct (crew_reachable_inv q0 task n _ Hok Hcap Hreach)
    as [(Hok' & _ & f & ths & Hws & Hf & Hths) _].
  split; [done|]. intros i w Hi. rewrite Hws in Hi.
  destruct i as [|i]; simpl in Hi.
  - simplify_eq. unfold owner_ok in Hf. intros Hpc. by rewrite Hpc in Hf.
  - rewrite list_lookup_fmap in Hi.
    destruct (ths !! i) as [g|] eqn:Hg; simplify_eq/=.
    pose proof (Forall_lookup_1 _ _ _ _ Hths Hg) as Hok_g.
    unfold thief_ok in Hok_g. intros Hpc. by rewrite Hpc in Hok_g.
Qed.

Lemma crew_never_faults_witness :
  wsq_ok crew_demo.1 /\
  forall i w, crew_demo.2 !! i = Some w ->
    match w with
    | Owner f => ppc f <> P_fault
    | Thief f => spc f <> S_fault
    end.
Proof.
  rewrite <- crew_demo_run.
  apply (crew_never_faults three_of_four 14 1
           ((λ i, (i, 0)) <$> [0; 0; 0; 1; 1; 1]%nat) three_of_four_ok).
  - simpl. lia.
  - unfold CInt.INT_MAX. simpl. lia.
Defined.

End WorkStealing.

(** ** 7. The GIL release around an I/O operation *)

Module GilRelease.

Definition AGGRESSIVE_GIL_RELEASE_THRESHOLD_NS : Z := 10000.

Record GILReleaseContext := mkCtx {
  start_time : Z;
  expected_duration : Z;
  should_release_gil : bool
}.

(** [gil_release_init]; [now] is what [get_monotonic_time_ns] returns. *)
Definition gil_release_init (now : Z) (expected_ns : Z) : GILReleaseContext :=
  mkCtx now expected_ns (AGGRESSIVE_GIL_RELEASE_THRESHOLD_NS <? expected_ns).

(** What [optimized_io_operation] calls, in order. *)
Inductive io_event :=
| Save_thread                  (* Py_BEGIN_ALLOW_THREADS *)
| Perform_io (data size : Z)   (* perform_io(data, size) *)
| Restore_thread.              (* Py_END_ALLOW_THREADS *)

(** [optimized_io_operation(data, size)].  [size * 100] is computed in
    [size_t] and converted to [int64_t].  [GIL_RELEASE_START] opens
    [if (ctx->should_release_gil) {] and [GIL_RELEASE_END] closes it, so
    the statement between the two macros is inside the conditional. *)
Definition optimized_io_operation (now : Z) (data size : Z) : list io_event :=
  let expected_ns := CInt.wrap_int64 (CInt.to_size_t (size * 100)) in
  let ctx := gil_release_init now expected_ns in
  if should_release_gil ctx
  then [Save_thread; Perform_io data size; Restore_thread]
  else [].

(** X21: [optimized_io_operation] performs the I/O only when it releases
    the GIL, the call of [perform_io] being inside the conditional that the
    two macros open and close: for a size of at most 100 bytes (an
    estimate of at most 10000 ns) it does nothing at all, and for a larger
    size (whose estimate fits [int64_t]) it releases the GIL, performs the
    I/O once and takes the GIL back, in this order. *)
Theorem optimized_io_operation_trace now data size :
  0 <= size < 2 ^ 64 ->
  (size <= 100 -> optimized_io_operation now data size = []) /\
  (100 < size <= 92233720368547758 ->
   optimized_io_operation now data size
   = [Save_thread; Perform_io data size; Restore_thread]) /\
  (Perform_io data size ∈ optimized_io_operation now data size <->
   Save_thread ∈ optimized_io_operation now data size).
Proof.
  intros Hsize. unfold optimized_io_operation, gil_release_init.
  cbn [should_release_gil]. unfold AGGRESSIVE_GIL_RELEASE_THRESHOLD_NS.
  split_and!.
  - intros Hle. rewrite CInt.to_size_t_id, CInt.wrap_int64_id by lia.
    by destruct (Z.ltb_spec 10000 (size * 100)); [lia|].
  - intros Hle. rewrite CInt.to_size_t_id, CInt.wrap_int64_id by lia.
    by destruct (Z.ltb_spec 10000 (size * 100)); [|lia].
  - destruct (10000 <? _).
    + split; intros _; [apply list_elem_of_here|].
      apply list_elem_of_further, list_elem_of_here.
    + split; intros H; by apply not_elem_of_nil in H.
Qed.

Lemma optimized_io_operation_trace_witness :
  optimized_io_operation 0 7 100 = [] /\
  optimized_io_operation 0 7 101 = [Save_thread; Perform_io 7 101; Restore_thread].
Proof.
  destruct (optimized_io_operation_trace 0 7 100 ltac:(lia)) as (H1 & _ & _).
  destruct (optimized_io_operation_trace 0 7 101 ltac:(lia)) as (_ & H2 & _).
  split; [apply H1; lia|apply H2; lia].
Defined.

End GilRelease.

(** ** The bucket count of the parking table *)

Module ParkingTable.

(** The loop over [primes]: the first entry that is at least
    [bucket_count], or [best_prime] as it was initialised. *)
Fixpoint first_prime_from (primes : list Z) (bucket_count best_prime : Z) : Z :=
  match primes with
  | [] => best_prime
  | p :: primes' =>
      if bucket_count <=? p then p
      else first_prime_from primes' bucket_count best_prime
  end.

(** [_get_optimal_bucket_count]; [num_processors] is the [int] that
    [_Py_GetNumProcessors] returns, converted to [size_t]. *)
Definition _get_optimal_bucket_count (num_processors : Z) : Z :=
  let cpu_count := CInt.to_size_t num_processors in
  let cpu_count := if cpu_count <? 1 then 1 else cpu_count in
  let bucket_count := CInt.to_size_t (cpu_count * 64) in
  first_prime_from [257; 509; 1021; 2039] bucket_count 257.

(** X22: [_get_optimal_bucket_count] returns the smallest of the primes
    257, 509, 1021, 2039 that is at least 64 times the processor count
    when there is one, that is for up to 31 processors; from 32 processors
    on no prime of the list is large enough and the result is the initial
    value 257 again, as it is for a count of zero or a negative one. *)
Theorem bucket_count_by_processors n :
  CInt.in_int n ->
  _get_optimal_bucket_count n
  = if n <? 5 then 257
    else if n <? 8 then 509
    else if n <? 16 then 1021
    else if n <? 32 then 2039
    else 257.
Proof.
  unfold CInt.in_int, CInt.INT_MIN, CInt.INT_MAX. intros Hn.
  unfold _get_optimal_bucket_count, CInt.to_size_t.
  destruct (Z.lt_ge_cases n 0) as [Hneg|Hpos].
  - replace (n mod 2 ^ 64) with (n + 2 ^ 64)
      by (apply Z.mod_unique with (-1); lia).
    destruct (Z.ltb_spec (n + 2 ^ 64) 1); [lia|].
    replace (((n + 2 ^ 64) * 64) mod 2 ^ 64) with (64 * n + 2 ^ 64)
      by (apply Z.mod_unique with 63; lia).
    simpl first_prime_from.
    repeat match goal with
           | |- context [?a <=? ?b] => destruct (Z.leb_spec a b); [lia|]
           end.
    by destruct (Z.ltb_spec n 5); [|lia].
  - rewrite (Z.mod_small n) by lia.
    destruct (Z.ltb_spec n 1).
    + rewrite Z.mod_small by lia. simpl.
      by destruct (Z.ltb_spec n 5); [|lia].
    + rewrite Z.mod_small by lia. simpl first_prime_from.
      destruct (Z.ltb_spec n 5); [destruct (Z.leb_spec (n * 64) 257); [done|lia]|].
      destruct (Z.leb_spec (n * 64) 257); [lia|].
      destruct (Z.ltb_spec n 8); [destruct (Z.leb_spec (n * 64) 509); [done|lia]|].
      destruct (Z.leb_spec (n * 64) 509); [lia|].
      destruct (Z.ltb_spec n 16); [destruct (Z.leb_spec (n * 64) 1021); [done|lia]|].
      destruct (Z.leb_spec (n * 64) 1021); [lia|].
      destruct (Z.ltb_spec n 32); [destruct (Z.leb_spec (n * 64) 2039); [done|lia]|].
      destruct (Z.leb_spec (n * 64) 2039); [lia|]. done.
Qed.

Lemma bucket_count_by_processors_witness :
  _get_optimal_bucket_count 16 = 2039 /\ _get_optimal_bucket_count 64 = 257.
Proof.
  split.
  - apply (bucket_count_by_processors 16).
    unfold CInt.in_int, CInt.INT_MIN, CInt.INT_MAX. lia.
  - apply (bucket_count_by_processors 64).
    unfold CInt.in_int, CInt.INT_MIN, CInt.INT_MAX. lia.
Defined.

End ParkingTable.
